(** * simgrid-league-results-composer: championship standings pipeline

    A shallow embedding of [src/merge-results.ts] and of its sibling
    [src/unnamed/part_000], and the properties of the aggregation pipeline
    (loader, class grouper, driver merger, ranker, report formatter).

    Modelling conventions.
    - A JavaScript [number] is a mathematical integer ([Z]).  This is exact
      as long as every value and every running sum stays inside the
      safe-integer range of an IEEE double; fractional points, [NaN] and the
      infinities are outside the model.
    - A JavaScript string is a [string]; one [ascii] stands for one UTF-16
      code unit, which is exact for ASCII text.  The non-ASCII characters
      of the two report headings are kept as their UTF-8 bytes; no
      statement measures a heading.
    - A [Map] is an insertion-ordered association list: [Map.prototype.set]
      on a present key keeps the key's place, on a fresh key appends.
    - [Array.prototype.sort] is a stable sort (ECMAScript 2019); it is
      modelled by a stable insertion sort, which computes the one stable
      ordering there is for a consistent comparator.
    - The code is dynamically typed at run time: [JSON.parse] returns
      whatever the file holds.  The run is modelled on every input up to
      the end of the loader, and beyond it on the class entries whose
      fields have the types the operations assume; what JavaScript does
      with other values (coercions, [TypeError]s) is a parameter of the
      run, [untypedRun], and the statements hold for any such behaviour.
    - The two files declare the same types and share the loader, the
      grouper, the comparator and [assignPositions] verbatim; these are
      embedded once.  What differs (the merger, the formatter) lives in
      [Module MergeResults] and [Module Part000]. *)

From Stdlib Require Import ZArith String Ascii List Lia DecimalString.
From stdpp Require Import base option list strings sorting.

Local Open Scope string_scope.
Local Open Scope list_scope.
Local Open Scope Z_scope.

(** ** Data model (lines 4-47 of both files) *)

Record Race := mkRace {
  racePosition : Z;
  pointsGiven : Z;
  penaltyPoints : option Z;
  pointsTotal : Z;
  dnf : bool;
  dns : bool;
}.

(** [Standing] and [MergedStanding] are the same structural type in the
    source.  No function of either file reads a field of a race, so the
    record is parametric in the type of the elements of [races]. *)
Record Standing (R : Type) := mkStanding {
  position : Z;
  id : string;
  carNum : Z;
  car : string;
  championshipPoints : Z;
  championshipPenalties : Z;
  championshipScore : Z;
  pointsAdjustment : Z;
  actualPoints : Z;
  races : list R;
}.
Arguments mkStanding {R}.
Arguments position {R}.
Arguments id {R}.
Arguments carNum {R}.
Arguments car {R}.
Arguments championshipPoints {R}.
Arguments championshipPenalties {R}.
Arguments championshipScore {R}.
Arguments pointsAdjustment {R}.
Arguments actualPoints {R}.
Arguments races {R}.

Abbreviation MergedStanding := Standing (only parsing).

Record ClassData (R : Type) := mkClassData {
  carClass : string;
  standings : list (Standing R);
}.
Arguments mkClassData {R}.
Arguments carClass {R}.
Arguments standings {R}.

Abbreviation MergedClassData := ClassData (only parsing).

(** ** [Map<string, V>] as an insertion-ordered association list *)

Module JsMap.
Section Defs.
Context {V : Type}.

Definition t := list (string * V).

Definition empty : t := [].

Fixpoint get (k : string) (m : t) : option V :=
  match m with
  | [] => None
  | (k', v) :: m' => if decide (k' = k) then Some v else get k m'
  end.

Fixpoint set (k : string) (v : V) (m : t) : t :=
  match m with
  | [] => [(k, v)]
  | (k', v') :: m' =>
      if decide (k' = k) then (k, v) :: m' else (k', v') :: set k v m'
  end.

Definition keys (m : t) : list string := m.*1.
Definition values (m : t) : list V := m.*2.
Definition entries (m : t) : list (string * V) := m.
End Defs.
Arguments t : clear implicits.
End JsMap.

(** ** [Array.prototype.sort] with a comparator

  [cmp a b < 0] puts [a] first, [cmp a b > 0] puts [b] first, and on
  [cmp a b = 0] the earlier element stays first. *)

Section Sort.
Context {A : Type} (cmp : A -> A -> Z).

Fixpoint sort_insert (x : A) (l : list A) : list A :=
  match l with
  | [] => [x]
  | y :: l' => if cmp x y <=? 0 then x :: y :: l' else y :: sort_insert x l'
  end.

Fixpoint js_sort (l : list A) : list A :=
  match l with
  | [] => []
  | x :: l' => sort_insert x (js_sort l')
  end.
End Sort.

(** ** The ranker (merge-results.ts 97-111, part_000 95-109) *)

Section Ranker.
Context {R : Type}.

(** The comparator passed to [sort]. *)
Definition comparePoints (a b : MergedStanding R) : Z :=
  if decide (championshipPoints b <> championshipPoints a)
  then championshipPoints b - championshipPoints a
  else championshipScore b - championshipScore a.

Definition sortStandingsByPoints (l : list (MergedStanding R))
  : list (MergedStanding R) :=
  js_sort comparePoints l.

Definition withPosition (standing : MergedStanding R) (index : nat)
  : MergedStanding R :=
  {| position := Z.of_nat index + 1;
     id := id standing;
     carNum := carNum standing;
     car := car standing;
     championshipPoints := championshipPoints standing;
     championshipPenalties := championshipPenalties standing;
     championshipScore := championshipScore standing;
     pointsAdjustment := pointsAdjustment standing;
     actualPoints := actualPoints standing;
     races := races standing |}.

Definition assignPositions (l : list (MergedStanding R))
  : list (MergedStanding R) :=
  imap (fun index standing => withPosition standing index) l.
End Ranker.

(** ** The driver merger *)

(** The record a first occurrence seeds (merge-results.ts 79-90,
  part_000 77-88: the same object literal). *)
Definition seed {R : Type} (standing : Standing R) : MergedStanding R :=
  {| position := 0;
   id := id standing;
   carNum := carNum standing;
   car := car standing;
   championshipPoints := championshipPoints standing;
   championshipPenalties := championshipPenalties standing;
   championshipScore := championshipScore standing;
   pointsAdjustment := pointsAdjustment standing;
   actualPoints := actualPoints standing;
   races := races standing |}.

(** The loop of [mergeStandingsByDriver], for a given way of folding a
  later occurrence into the record found in the map.  [existing] is
  mutated in place in the source; the map holds the only reference to it,
  so the mutation is a [set] at a key that is present. *)
Section MergeLoop.
Context {R : Type}.
Variable accumulate : MergedStanding R -> Standing R -> MergedStanding R.

Definition mergeStep (driverMap : JsMap.t (MergedStanding R))
    (standing : Standing R) : JsMap.t (MergedStanding R) :=
  match JsMap.get (id standing) driverMap with
  | Some existing =>
      JsMap.set (id standing) (accumulate existing standing) driverMap
  | None => JsMap.set (id standing) (seed standing) driverMap
  end.

Definition mergeLoop (l : list (Standing R)) : list (MergedStanding R) :=
  JsMap.values (fold_left mergeStep l JsMap.empty).

(** One driver's records folded in order: the first seeds, the others are
  accumulated. *)
Definition folded (l : list (Standing R)) : option (MergedStanding R) :=
  match l with
  | [] => None
  | first :: later => Some (fold_left accumulate later (seed first))
  end.
End MergeLoop.

(** ** Strings: the built-ins the formatter calls *)

Definition nl : string := String (ascii_of_nat 10) EmptyString.

Definition spaces (n : nat) : string := string_of_list_ascii (repeat " "%char n).

(** [String.prototype.padStart] and [padEnd] with the default filler. *)
Definition padStart (s : string) (targetLength : nat) : string :=
  spaces (targetLength - String.length s) +:+ s.

Definition padEnd (s : string) (targetLength : nat) : string :=
  s +:+ spaces (targetLength - String.length s).

(** [s.substring(0, n)]: a negative end counts as 0, hence [nat]. *)
Definition substring0 (n : nat) (s : string) : string := String.substring 0 n s.

Definition isWhiteSpace (c : ascii) : bool :=
  let n := nat_of_ascii c in
  ((9 <=? n)%nat && (n <=? 13)%nat) || (n =? 32)%nat.

Fixpoint trimStart (s : string) : string :=
  match s with
  | String c s' => if isWhiteSpace c then trimStart s' else s
  | EmptyString => EmptyString
  end.

Fixpoint trimEnd (s : string) : string :=
  match s with
  | String c s' =>
      match trimEnd s' with
      | EmptyString => if isWhiteSpace c then EmptyString else String c EmptyString
      | t => String c t
      end
  | EmptyString => EmptyString
  end.

Definition trim (s : string) : string := trimEnd (trimStart s).

(** [String(n)] of an integer, as a template literal prints it. *)
Definition numberToString (n : Z) : string := NilZero.string_of_int (Z.to_int n).

(** [n.toFixed(digits)] of an integer below 10^21 in absolute value. *)
Definition toFixed (n : Z) (digits : nat) : string :=
  match digits with
  | O => numberToString n
  | _ => numberToString n +:+ "." +:+ string_of_list_ascii (repeat "0"%char digits)
  end.

Definition endsWith (s suffix : string) : bool :=
  (String.length suffix <=? String.length s)%nat
  && String.eqb
       (String.substring (String.length s - String.length suffix)
          (String.length suffix) s)
       suffix.

(** [lines.join(sep)] *)
Definition join (sep : string) (lines : list string) : string :=
  String.concat sep lines.

(** ** The class grouper and the per-class pipeline
    (merge-results.ts 154-178, part_000 169-193) *)

Section Pipeline.
Context {R : Type}.
Variable localeCompare : string -> string -> Z.
Variable mergeStandingsByDriver : list (Standing R) -> list (MergedStanding R).

Definition groupStep (classMap : JsMap.t (list (Standing R)))
    (classData : ClassData R) : JsMap.t (list (Standing R)) :=
  match JsMap.get (carClass classData) classMap with
  | Some existing =>
      JsMap.set (carClass classData) (existing ++ standings classData) classMap
  | None => JsMap.set (carClass classData) (standings classData) classMap
  end.

Definition buildClassMap (allClassData : list (ClassData R))
  : JsMap.t (list (Standing R)) :=
  fold_left groupStep allClassData JsMap.empty.

(** The body of the loop over [classMap.entries()]. *)
Definition rankClass (l : list (Standing R)) : list (MergedStanding R) :=
  assignPositions (sortStandingsByPoints (mergeStandingsByDriver l)).

Definition buildMergedResults (classMap : JsMap.t (list (Standing R)))
  : list (MergedClassData R) :=
  map (fun entry => mkClassData entry.1 (rankClass entry.2))
      (JsMap.entries classMap).

Definition compareClasses (a b : MergedClassData R) : Z :=
  localeCompare (carClass a) (carClass b).

(** Everything between the loader and the formatter. *)
Definition mergedResults (allClassData : list (ClassData R))
  : list (MergedClassData R) :=
  js_sort compareClasses (buildMergedResults (buildClassMap allClassData)).
End Pipeline.

(** ** Values produced by [JSON.parse]

    Numbers are the integers, objects list their own properties (each
    name once). *)

#[local] Set Warnings "-register-all".
Inductive JSON :=
| JNull
| JBool (b : bool)
| JNum (n : Z)
| JStr (s : string)
| JArr (items : list JSON)
| JObj (properties : list (string * JSON)).

(** Reading a property of a parsed object; [None] is [undefined]. *)
Definition getProp (k : string) (v : JSON) : option JSON :=
  match v with
  | JObj properties => JsMap.get k properties
  | _ => None
  end.

Definition asNum (v : JSON) : option Z :=
  match v with JNum n => Some n | _ => None end.
Definition asStr (v : JSON) : option string :=
  match v with JStr s => Some s | _ => None end.
Definition asBool (v : JSON) : option bool :=
  match v with JBool b => Some b | _ => None end.
Definition asArr (v : JSON) : option (list JSON) :=
  match v with JArr l => Some l | _ => None end.
Definition asNullable (v : JSON) : option (option Z) :=
  match v with JNull => Some None | JNum n => Some (Some n) | _ => None end.
Definition arrayOf {A : Type} (dec : JSON -> option A) (v : JSON)
  : option (list A) :=
  l ← asArr v; mapM dec l.
Definition field {A : Type} (k : string) (dec : JSON -> option A) (v : JSON)
  : option A :=
  x ← getProp k v; dec x.

(** *** The declared shape (the type declarations, lines 4-29)

    [decodeFragment v] is [Some] exactly when [v] is a [ClassData[]] as
    the source declares it: every property present with its declared type. *)

Definition decodeRace (v : JSON) : option Race :=
  p ← field "position" asNum v;
  g ← field "pointsGiven" asNum v;
  pen ← field "penaltyPoints" asNullable v;
  t ← field "pointsTotal" asNum v;
  f ← field "dnf" asBool v;
  s ← field "dns" asBool v;
  Some (mkRace p g pen t f s).

Section Decode.
Context {R : Type}.
Variable decodeR : JSON -> option R.

Definition decodeStanding (v : JSON) : option (Standing R) :=
  p ← field "position" asNum v;
  i ← field "id" asStr v;
  n ← field "carNum" asNum v;
  c ← field "car" asStr v;
  cp ← field "championshipPoints" asNum v;
  pe ← field "championshipPenalties" asNum v;
  cs ← field "championshipScore" asNum v;
  pa ← field "pointsAdjustment" asNum v;
  ap ← field "actualPoints" asNum v;
  rs ← field "races" (arrayOf decodeR) v;
  Some (mkStanding p i n c cp pe cs pa ap rs).

Definition decodeClassData (v : JSON) : option (ClassData R) :=
  c ← field "carClass" asStr v;
  l ← field "standings" (arrayOf decodeStanding) v;
  Some (mkClassData c l).

Definition decodeFragment (v : JSON) : option (list (ClassData R)) :=
  arrayOf decodeClassData v.
End Decode.

(** A fragment that deserializes into the expected shape. *)
Definition wellShaped (v : JSON) : bool :=
  bool_decide (is_Some (decodeFragment decodeRace v)).

(** What the code itself relies on: it never reads a field of a race, so a
    class entry is usable as soon as everything but the elements of [races]
    has its declared type.  (This is on the safe side: the input
    [position] is never read and [carNum] is only copied.) *)
Definition viewClassData (v : JSON) : option (ClassData JSON) :=
  decodeClassData Some v.

(** ** The run: loader, pipeline, sink *)

Inductive RunError := SyntaxError | TypeError.

Inductive Except (A : Type) :=
| threw (e : RunError)
| returned (a : A).
Arguments threw {A}.
Arguments returned {A}.

Definition bindE {A B : Type} (m : Except A) (k : A -> Except B) : Except B :=
  match m with
  | threw e => threw e
  | returned a => k a
  end.

#[global] Instance Except_bind : MBind Except :=
  fun A B k m => bindE m k.

(** [...data] in argument position: arrays and strings are iterable,
    anything else [JSON.parse] can return is not. *)
Definition spread (data : JSON) : Except (list JSON) :=
  match data with
  | JArr items => returned items
  | JStr s => returned (map (fun c => JStr (String c EmptyString)) (list_ascii_of_string s))
  | _ => threw TypeError
  end.

Section Run.
Context {content : Type}.
(** [JSON.parse]: [None] when it throws a [SyntaxError]. *)
Variable JSON_parse : content -> option JSON.
Variable localeCompare : string -> string -> Z.
Variable mergeStandingsByDriver
  : list (Standing JSON) -> list (MergedStanding JSON).
Variable formatResultsForDiscord : list (MergedClassData JSON) -> string.
(** What the rest of the run does with class entries that do not have the
    types its operations assume.  JavaScript then coerces or throws,
    depending on the value and on where it is used; that is not modelled,
    and every statement below holds whatever it is. *)
Variable untypedRun : list JSON -> Except string.

Definition parseE (c : content) : Except JSON :=
  match JSON_parse c with
  | Some data => returned data
  | None => threw SyntaxError
  end.

(** The loop body of [readAllJsonFiles] (lines 55-60). *)
Definition readStep (allData : Except (list JSON)) (file : string * content)
  : Except (list JSON) :=
  acc ← allData;
  data ← parseE file.2;
  items ← spread data;
  returned (acc ++ items).

(** [readAllJsonFiles] over the listing of the directory, each file name
    with its content (lines 49-63). *)
Definition readAllJsonFiles (files : list (string * content))
  : Except (list JSON) :=
  let jsonFiles := List.filter (fun file => endsWith file.1 ".json") files in
  fold_left readStep jsonFiles (returned []).

(** [mergeAndSortResults]: the value returned is the string handed to
    [writeFile]; [threw] is the rejection caught at the top level, where
    nothing has been written. *)
Definition mergeAndSortResults (files : list (string * content))
  : Except string :=
  allClassData ← readAllJsonFiles files;
  match mapM viewClassData allClassData with
  | Some typed =>
      returned (formatResultsForDiscord
                  (mergedResults localeCompare mergeStandingsByDriver typed))
  | None => untypedRun allClassData
  end.
End Run.

(** ** merge-results.ts *)

Module MergeResults.
Section Defs.
Context {R : Type}.

(** lines 72-77 *)
Definition accumulate (existing : MergedStanding R) (standing : Standing R)
  : MergedStanding R :=
  {| position := position existing;
     id := id existing;
     carNum := carNum existing;
     car := car existing;
     championshipPoints :=
       championshipPoints existing + championshipPoints standing;
     championshipPenalties :=
       championshipPenalties existing + championshipPenalties standing;
     championshipScore :=
       championshipScore existing + championshipScore standing;
     pointsAdjustment := pointsAdjustment existing + pointsAdjustment standing;
     actualPoints := actualPoints existing + actualPoints standing;
     races := races existing ++ races standing |}.

(** lines 65-95 *)
Definition mergeStandingsByDriver (l : list (Standing R))
  : list (MergedStanding R) :=
  mergeLoop accumulate l.

(** lines 114-117 *)
Definition truncateText (text : string) (maxLength : nat) : string :=
  if (String.length text <=? maxLength)%nat then text
  else substring0 (maxLength - 1) text +:+ ".".

Definition POS_WIDTH : nat := 4.
Definition DRIVER_WIDTH : nat := 15.
Definition CAR_WIDTH : nat := 13.
Definition POINTS_WIDTH : nat := 3.

(** The columns and the separators of a row, as line 140 lays them out. *)
Definition ROW_WIDTH : nat :=
  POS_WIDTH + 1 + DRIVER_WIDTH + 3 + CAR_WIDTH + 3 + POINTS_WIDTH.

(** lines 135-140: one table row *)
Definition renderRow (standing : MergedStanding R) : string :=
  let pos := padStart (numberToString (position standing) +:+ ".") POS_WIDTH in
  let driver :=
    padEnd (truncateText (trim (id standing)) DRIVER_WIDTH) DRIVER_WIDTH in
  let car := padEnd (truncateText (trim (car standing)) CAR_WIDTH) CAR_WIDTH in
  let points := padStart (toFixed (championshipPoints standing) 0) POINTS_WIDTH in
  pos +:+ " " +:+ driver +:+ " | " +:+ car +:+ " | " +:+ points.

(** lines 131-143: the lines of one class *)
Definition classLines (classData : MergedClassData R) : list string :=
  ["**" +:+ carClass classData +:+ "**"; "```"]
  ++ map renderRow (standings classData)
  ++ ["```" +:+ nl].

Definition heading : string := "ðŸ **Standings**" +:+ nl.

(** lines 119-147 *)
Definition formatResultsForDiscord (results : list (MergedClassData R))
  : string :=
  join nl (heading :: concat (map classLines results)).
End Defs.

(** lines 149-187 *)
Definition mergeAndSortResults {content : Type}
    (JSON_parse : content -> option JSON)
    (localeCompare : string -> string -> Z)
    (untypedRun : list JSON -> Except string)
    (files : list (string * content)) : Except string :=
  mergeAndSortResults JSON_parse localeCompare mergeStandingsByDriver
    formatResultsForDiscord untypedRun files.
End MergeResults.

(** ** part_000 *)

Module Part000.
Section Defs.
Context {R : Type}.

(** lines 72-75 *)
Definition accumulate (existing : MergedStanding R) (standing : Standing R)
  : MergedStanding R :=
  {| position := position existing;
     id := id existing;
     carNum := carNum existing;
     car := car existing;
     championshipPoints :=
       championshipPoints existing + championshipPoints standing;
     championshipPenalties := championshipPenalties existing;
     championshipScore :=
       championshipScore existing + championshipScore standing;
     pointsAdjustment := pointsAdjustment existing;
     actualPoints := actualPoints existing + actualPoints standing;
     races := races existing ++ races standing |}.

(** lines 65-93 *)
Definition mergeStandingsByDriver (l : list (Standing R))
  : list (MergedStanding R) :=
  mergeLoop accumulate l.

(** lines 111-113 *)
Definition formatStandingPosition (position : Z) : string :=
  padStart (numberToString position +:+ ".") 4.

(** lines 115-120 *)
Definition truncateAndPad (text : string) (maxWidth : nat) : string :=
  if (maxWidth <? String.length text)%nat
  then substring0 (maxWidth - 3) text +:+ "..."
  else padEnd text maxWidth.

Definition POS_WIDTH : nat := 4.
Definition DRIVER_WIDTH : nat := 30.
Definition CAR_WIDTH : nat := 25.
Definition POINTS_WIDTH : nat := 6.

Definition dashes (n : nat) : string := string_of_list_ascii (repeat "-"%char n).

(** lines 136-147: the two header lines of a table *)
Definition headerLines : list string :=
  [ truncateAndPad "Pos" POS_WIDTH +:+ " | " +:+
    truncateAndPad "Driver" DRIVER_WIDTH +:+ " | " +:+
    truncateAndPad "Car" CAR_WIDTH +:+ " | " +:+
    truncateAndPad "Points" POINTS_WIDTH;
    dashes POS_WIDTH +:+ " | " +:+ dashes DRIVER_WIDTH +:+ " | " +:+
    dashes CAR_WIDTH +:+ " | " +:+ dashes POINTS_WIDTH ].

(** The columns and the separators of a row, as line 155 lays them out. *)
Definition ROW_WIDTH : nat :=
  POS_WIDTH + 3 + DRIVER_WIDTH + 3 + CAR_WIDTH + 3 + POINTS_WIDTH.

(** lines 150-155: one table row *)
Definition renderRow (standing : MergedStanding R) : string :=
  let position := formatStandingPosition (position standing) in
  let driver := truncateAndPad (trim (id standing)) DRIVER_WIDTH in
  let car := truncateAndPad (trim (car standing)) CAR_WIDTH in
  let points :=
    truncateAndPad (toFixed (championshipPoints standing) 1) POINTS_WIDTH in
  position +:+ " | " +:+ driver +:+ " | " +:+ car +:+ " | " +:+ points.

(** lines 134-158: the lines of one class *)
Definition classLines (classData : MergedClassData R) : list string :=
  ["## " +:+ carClass classData +:+ nl; "```"]
  ++ headerLines
  ++ map renderRow (standings classData)
  ++ ["```" +:+ nl].

Definition heading : string := "# 🏁 Championship Standings" +:+ nl.

(** lines 122-162 *)
Definition formatResultsForDiscord (results : list (MergedClassData R))
  : string :=
  join nl (heading :: concat (map classLines results)).
End Defs.

(** lines 164-202 *)
Definition mergeAndSortResults {content : Type}
    (JSON_parse : content -> option JSON)
    (localeCompare : string -> string -> Z)
    (untypedRun : list JSON -> Except string)
    (files : list (string * content)) : Except string :=
  mergeAndSortResults JSON_parse localeCompare mergeStandingsByDriver
    formatResultsForDiscord untypedRun files.
End Part000.

(** ** The two implementations side by side *)

Inductive Source := merge_results_ts | part_000.

Definition accumulateOf {R : Type} (src : Source)
  : MergedStanding R -> Standing R -> MergedStanding R :=
  match src with
  | merge_results_ts => MergeResults.accumulate
  | part_000 => Part000.accumulate
  end.

Definition mergerOf {R : Type} (src : Source)
  : list (Standing R) -> list (MergedStanding R) :=
  match src with
  | merge_results_ts => MergeResults.mergeStandingsByDriver
  | part_000 => Part000.mergeStandingsByDriver
  end.



Definition runOf {content : Type} (src : Source)
    (JSON_parse : content -> option JSON)
    (localeCompare : string -> string -> Z)
    (untypedRun : list JSON -> Except string)
    (files : list (string * content)) : Except string :=
  match src with
  | merge_results_ts =>
      MergeResults.mergeAndSortResults JSON_parse localeCompare untypedRun files
  | part_000 =>
      Part000.mergeAndSortResults JSON_parse localeCompare untypedRun files
  end.

(** ** Vocabulary of the statements *)

Section Vocabulary.
Context {R : Type}.

(** [a] ranks strictly ahead of [b]: more points, or as many points and a
    higher score. *)
Definition ahead (a b : MergedStanding R) : Prop :=
  championshipPoints a > championshipPoints b
  \/ (championshipPoints a = championshipPoints b
      /\ championshipScore a > championshipScore b).

(** An exact tie on both keys. *)
Definition tied (a b : MergedStanding R) : Prop :=
  championshipPoints a = championshipPoints b
  /\ championshipScore a = championshipScore b.

(** The index of the first occurrence of driver [d] in a standings list
    (the length of the list when there is none). *)
Fixpoint firstOccurrence (d : string) (l : list (Standing R)) : nat :=
  match l with
  | [] => O
  | s :: l' => if decide (id s = d) then O else S (firstOccurrence d l')
  end.

(** The records of driver [d] in a standings list, in order. *)
Definition occurrences (d : string) (l : list (Standing R)) : list (Standing R) :=
  filter (fun s => id s = d) l.

(** The standings reported for class [c] by a sequence of fragments, in
    fragment order and then in-fragment order. *)
Definition classStandings (c : string) (fragments : list (list (ClassData R)))
  : list (Standing R) :=
  concat (standings <$> filter (fun cd => carClass cd = c) (concat fragments)).

(** The contributions of driver [d] to class [c], in order. *)
Definition contributions (c d : string) (fragments : list (list (ClassData R)))
  : list (Standing R) :=
  occurrences d (classStandings c fragments).

(** The record of driver [d] of class [c] in the results. *)
Definition lookupDriver (c d : string) (results : list (MergedClassData R))
  : option (MergedStanding R) :=
  cd ← List.find (fun cd => bool_decide (carClass cd = c)) results;
  List.find (fun m => bool_decide (id m = d)) (standings cd).

Definition pointsAndScore (m : MergedStanding R) : Z * Z :=
  (championshipPoints m, championshipScore m).

(** The five numeric fields. *)
Definition numericFields (m : Standing R) : Z * Z * Z * Z * Z :=
  (championshipPoints m, championshipPenalties m, championshipScore m,
   pointsAdjustment m, actualPoints m).

(** Everything but the penalties and the adjustment. *)
Definition sharedFields (m : Standing R)
  : Z * string * Z * string * Z * Z * Z * list R :=
  (position m, id m, carNum m, car m, championshipPoints m,
   championshipScore m, actualPoints m, races m).

(** Two driver maps with the same keys in the same order and values that
    agree on the shared fields. *)
Definition alike (ma mb : JsMap.t (MergedStanding R)) : Prop :=
  Forall2 (fun x y => x.1 = y.1 /\ sharedFields x.2 = sharedFields y.2) ma mb.

(** Field-wise sums over a list of records. *)
Definition sumOf (f : Standing R -> Z) (l : list (Standing R)) : Z :=
  foldr (fun s acc => f s + acc) 0 l.

End Vocabulary.

(** Drivers of a first-occurrence list: each identity once, in the order of
    first occurrence. *)
Fixpoint firstSeen (ids : list string) : list string :=
  match ids with
  | [] => []
  | d :: ids' => d :: filter (fun d' => d' <> d) (firstSeen ids')
  end.

(** *** Concrete inputs *)

(** A standing with a given driver, points, penalties and score. *)
Definition entry (d : string) (points penalties score : Z) (rs : list nat)
  : Standing nat :=
  mkStanding 0 d 7 "Porsche" points penalties score 0 points rs.


(** Contents that are already the outcome of [JSON.parse]. *)
Definition parsed (c : option JSON) : option JSON := c.

Definition byteCompare (a b : string) : Z :=
  match String.compare a b with
  | Lt => -1
  | Eq => 0
  | Gt => 1
  end.

Definition alwaysThrows (allData : list JSON) : Except string := threw TypeError.

Definition jsonStanding (d : string) (points : Z) (rs : list JSON) : JSON :=
  JObj [("position", JNum 1); ("id", JStr d); ("carNum", JNum 7);
        ("car", JStr "Porsche"); ("championshipPoints", JNum points);
        ("championshipPenalties", JNum 0); ("championshipScore", JNum points);
        ("pointsAdjustment", JNum 0); ("actualPoints", JNum points);
        ("races", JArr rs)].

(** A fragment whose only race entry lacks every field but [position]. *)
Definition raceless : JSON :=
  JArr [JObj [("carClass", JStr "GT3");
              ("standings",
               JArr [jsonStanding "Alice" 10 [JObj [("position", JNum 1)]]])]].

(** Two records of one driver whose five numeric fields all differ. *)
Definition twoRecords : list (Standing nat) :=
  [ mkStanding 1 "Alice" 7 "Porsche" 10 1 5 2 11 [1%nat];
    mkStanding 1 "Alice" 7 "Porsche" 8 2 3 4 10 [2%nat] ].

(** A content the loader cannot take in: [JSON.parse] throws on it, or
    the value it yields is neither an array nor a string. *)
Definition unloadable {content : Type} (JSON_parse : content -> option JSON)
    (c : content) : Prop :=
  JSON_parse c = None
  \/ exists v, JSON_parse c = Some v /\ asArr v = None /\ asStr v = None.

(** A content that does not deserialize into the declared shape. *)
Definition malformed {content : Type} (JSON_parse : content -> option JSON)
    (c : content) : Prop :=
  match JSON_parse c with
  | None => True
  | Some v => wellShaped v = false
  end.

(** ** The safe-integer range

    The code adds IEEE doubles.  On integers the additions are exact, and
    are the additions of [Z], as long as every running total stays a safe
    integer; that is so when the absolute values of the addends sum to at
    most [Number.MAX_SAFE_INTEGER]. *)

Definition MAX_SAFE_INTEGER : Z := 2 ^ 53 - 1.

(** The values of field [f] over the records [l] can be added up, in any
    grouping, without leaving the safe-integer range. *)
Definition withinSafeRange {R : Type} (f : Standing R -> Z)
    (l : list (Standing R)) : Prop :=
  sumOf (fun s => Z.abs (f s)) l <= MAX_SAFE_INTEGER.

(** The same for the three fields both files add up, and for all five. *)
Definition summedWithinSafeRange {R : Type} (l : list (Standing R)) : Prop :=
  withinSafeRange championshipPoints l
  /\ withinSafeRange championshipScore l
  /\ withinSafeRange actualPoints l.

Definition numbersWithinSafeRange {R : Type} (l : list (Standing R)) : Prop :=
  summedWithinSafeRange l
  /\ withinSafeRange championshipPenalties l
  /\ withinSafeRange pointsAdjustment l.

(** ** The layout of a row, in the words of the width rule

    A text column of width [w] holds the text followed by spaces when the
    text fits, and otherwise the start of the text followed by the
    truncation marker, cut so that text and marker fill the column. *)








(** ** Vocabulary of the further properties *)

(** Everything but the position. *)
Definition withoutPosition {R : Type} (m : Standing R)
  : string * Z * string * (Z * Z * Z * Z * Z) * list R :=
  (id m, carNum m, car m, numericFields m, races m).

(** Everything the merger reads of an input standing: all but the
    position. *)
Definition sameButPosition {R : Type} (l l' : list (Standing R)) : Prop :=
  withoutPosition <$> l = withoutPosition <$> l'.

(** The error an unloadable content makes the loader throw. *)
Definition loadError {content : Type} (JSON_parse : content -> option JSON)
    (c : content) : RunError :=
  match JSON_parse c with
  | None => SyntaxError
  | Some _ => TypeError
  end.

(** The files of a listing that the loader reads. *)
Definition jsonFiles {content : Type} (files : list (string * content))
  : list (string * content) :=
  List.filter (fun file => endsWith file.1 ".json") files.

(** A comparator on class names that is consistent: by length. *)
Definition lengthCompare (a b : string) : Z :=
  Z.of_nat (String.length a) - Z.of_nat (String.length b).

(** A well-shaped fragment: one class, two records of one driver. *)
Definition jsonRace : JSON :=
  JObj [("position", JNum 1); ("pointsGiven", JNum 25);
        ("penaltyPoints", JNull); ("pointsTotal", JNum 25);
        ("dnf", JBool false); ("dns", JBool false)].

Definition gt3Fragment : JSON :=
  JArr [JObj [("carClass", JStr "GT3");
              ("standings",
               JArr [jsonStanding "Alice" 10 [jsonRace];
                     jsonStanding "Bob" 9 []])]].

(** The first line of the report of each file. *)
Definition headingOf (src : Source) : string :=
  match src with
  | merge_results_ts => MergeResults.heading
  | part_000 => Part000.heading
  end.

#[global] Instance tied_dec {R : Type} (a b : MergedStanding R)
  : Decision (tied a b).
Proof. unfold tied. apply _. Defined.

(** * Properties *)

(** ** The insertion-ordered map *)

Section JsMapFacts.
Context {V : Type}.
Implicit Types (m : JsMap.t V) (k : string) (v : V).

Lemma get_None_keys m k : JsMap.get k m = None <-> k ∉ JsMap.keys m.
Proof.
  unfold JsMap.keys. induction m as [|[k' v'] m IH]; simpl.
  - split; [intros _; apply not_elem_of_nil | reflexivity].
  - case_decide as E; rewrite not_elem_of_cons.
    + split; [done | intros [? _]; congruence].
    + rewrite IH. intuition congruence.
Qed.

Lemma get_set_eq m k v : JsMap.get k (JsMap.set k v m) = Some v.
Proof.
  induction m as [|[k' v'] m IH]; simpl.
  - by rewrite decide_True.
  - case_decide as E; simpl.
    + by rewrite decide_True.
    + by rewrite decide_False.
Qed.

Lemma get_set_ne m k k' v :
  k <> k' -> JsMap.get k' (JsMap.set k v m) = JsMap.get k' m.
Proof.
  intros Hne. induction m as [|[k0 v0] m IH]; simpl.
  - by rewrite decide_False.
  - case_decide as E; simpl.
    + subst k0. by rewrite !decide_False.
    + case_decide; [done | apply IH].
Qed.

Lemma keys_set m k v :
  JsMap.keys (JsMap.set k v m) =
  match JsMap.get k m with
  | Some _ => JsMap.keys m
  | None => JsMap.keys m ++ [k]
  end.
Proof.
  unfold JsMap.keys. induction m as [|[k' v'] m IH]; [done|].
  cbn [JsMap.set JsMap.get]. case_decide as E; rewrite !fmap_cons; cbn [fst].
  - by subst k'.
  - rewrite IH. by destruct (JsMap.get k m).
Qed.

Lemma get_elem_of m k v :
  NoDup (JsMap.keys m) -> (k, v) ∈ m -> JsMap.get k m = Some v.
Proof.
  unfold JsMap.keys. induction m as [|[k' v'] m IH]; simpl.
  - intros _ H. by apply elem_of_nil in H.
  - rewrite NoDup_cons. intros [Hk Hnd] [H|H]%elem_of_cons.
    + inversion H; subst. by rewrite decide_True.
    + case_decide as E; [|by apply IH].
      subst k'. destruct Hk. apply list_elem_of_fmap. by exists (k, v).
Qed.
End JsMapFacts.

(** ** First occurrences *)

Lemma elem_of_firstSeen (d : string) (ids : list string) :
  d ∈ firstSeen ids <-> d ∈ ids.
Proof.
  induction ids as [|z ids IH]; simpl; [done|].
  rewrite !elem_of_cons, list_elem_of_filter, IH.
  destruct (decide (d = z)); intuition.
Qed.

Lemma firstSeen_snoc (ids : list string) (d : string) :
  firstSeen (ids ++ [d]) =
  if decide (d ∈ ids) then firstSeen ids else firstSeen ids ++ [d].
Proof.
  induction ids as [|z ids IH]; simpl.
  - reflexivity.
  - rewrite IH, (decide_ext (d ∈ z :: ids) (d = z \/ d ∈ ids))
      by apply elem_of_cons.
    destruct (decide (d ∈ ids)) as [Hin|Hin].
    + rewrite decide_True by tauto. done.
    + rewrite filter_app, filter_cons, filter_nil.
      repeat case_decide; rewrite ?app_nil_r; try done;
        exfalso; intuition congruence.
Qed.

Lemma NoDup_firstSeen (ids : list string) : NoDup (firstSeen ids).
Proof.
  induction ids as [|z ids IH]; simpl; [constructor|].
  apply NoDup_cons. split.
  - rewrite list_elem_of_filter. intros [H _]. by apply H.
  - by apply NoDup_filter.
Qed.

(** In the first-occurrence list, a driver stands before another exactly
    as their first occurrences do. *)
Lemma firstSeen_order {R : Type} (l : list (Standing R)) (x y : string) :
  [x; y] `sublist_of` firstSeen (id <$> l) ->
  (firstOccurrence x l < firstOccurrence y l)%nat.
Proof.
  induction l as [|s l IH]; rewrite ?fmap_cons; cbn [firstSeen firstOccurrence].
  - intros H. apply sublist_nil_r in H. discriminate.
  - intros H.
    assert (Hnd : NoDup [x; y]).
    { eapply sublist_NoDup; [|exact H]. apply (NoDup_firstSeen (id s :: (id <$> l))). }
    assert (Hxy : x <> y).
    { apply NoDup_cons in Hnd as [Hnd _]. intros ->. apply Hnd, list_elem_of_here. }
    destruct (decide (id s = x)) as [Ex|Hx].
    + destruct (decide (id s = y)) as [Ey|Hy]; [congruence|lia].
    + apply sublist_cons_r in H as [H|(l' & Heq & H)]; [|congruence].
      assert (Hs : [x; y] `sublist_of` firstSeen (id <$> l)).
      { etrans; [exact H|]. apply sublist_filter. }
      assert (Hy : y ∈ filter (fun d' => d' <> id s) (firstSeen (id <$> l))).
      { eapply elem_of_sublist; [|exact H]. rewrite !elem_of_cons; tauto. }
      apply list_elem_of_filter in Hy as [Hy _].
      rewrite decide_False by congruence.
      apply IH in Hs. lia.
Qed.

(** ** The merge loop, for any accumulation that keeps the identity *)

Section MergeFacts.
Context {R : Type}.
Variable accumulate : MergedStanding R -> Standing R -> MergedStanding R.
Hypothesis accumulate_id : forall e s, id (accumulate e s) = id e.

Let loop (l : list (Standing R)) : JsMap.t (MergedStanding R) :=
  fold_left (mergeStep accumulate) l JsMap.empty.

Lemma loop_snoc l s : loop (l ++ [s]) = mergeStep accumulate (loop l) s.
Proof. unfold loop. by rewrite fold_left_app. Qed.

Lemma occurrences_snoc (d : string) (l : list (Standing R)) s :
  occurrences d (l ++ [s]) =
  occurrences d l ++ (if decide (id s = d) then [s] else []).
Proof. unfold occurrences. by rewrite filter_app, filter_cons, filter_nil. Qed.

Lemma folded_id l m : folded accumulate l = Some m ->
  exists first later, l = first :: later /\ id m = id first.
Proof.
  destruct l as [|first later]; [done|]. intros [= <-].
  exists first, later. split; [done|].
  generalize (seed first) (eq_refl : id (seed first) = id first).
  induction later as [|s later IH]; intros e He; simpl; [done|].
  apply IH. by rewrite accumulate_id.
Qed.

Lemma folded_snoc l s e :
  folded accumulate l = Some e ->
  folded accumulate (l ++ [s]) = Some (accumulate e s).
Proof.
  destruct l as [|first later]; [done|]. intros [= <-]. simpl.
  by rewrite fold_left_app.
Qed.

(** The record the map holds for a driver is the fold of that driver's
    occurrences. *)
Lemma loop_get l d :
  JsMap.get d (loop l) = folded accumulate (occurrences d l).
Proof.
  induction l as [|s l IH] using rev_ind; [done|].
  rewrite loop_snoc, occurrences_snoc. unfold mergeStep.
  destruct (decide (id s = d)) as [<-|Hne].
  - rewrite IH. destruct (folded accumulate (occurrences (id s) l)) as [e|] eqn:E.
    + rewrite get_set_eq. symmetry. by apply folded_snoc.
    + rewrite get_set_eq. destruct (occurrences (id s) l); [done|discriminate].
  - rewrite app_nil_r, <- IH.
    destruct (JsMap.get (id s) (loop l)); by apply get_set_ne.
Qed.

(** The keys of the map are the drivers in first-occurrence order. *)
Lemma loop_keys l : JsMap.keys (loop l) = firstSeen (id <$> l).
Proof.
  induction l as [|s l IH] using rev_ind; [done|].
  rewrite loop_snoc, fmap_app. change (id <$> [s]) with [id s].
  rewrite firstSeen_snoc. unfold mergeStep.
  destruct (JsMap.get (id s) (loop l)) as [e|] eqn:E; rewrite keys_set, E.
  - rewrite decide_True; [done|].
    apply elem_of_firstSeen. rewrite <- IH.
    destruct (decide (id s ∈ JsMap.keys (loop l))) as [?|Hn]; [done|].
    apply get_None_keys in Hn. congruence.
  - rewrite decide_False; [by rewrite IH|].
    rewrite <- elem_of_firstSeen, <- IH. by apply get_None_keys.
Qed.

Lemma loop_NoDup l : NoDup (JsMap.keys (loop l)).
Proof. rewrite loop_keys. apply NoDup_firstSeen. Qed.

Lemma loop_entry l k m :
  (k, m) ∈ loop l -> folded accumulate (occurrences k l) = Some m /\ id m = k.
Proof.
  intros Hin. apply get_elem_of in Hin; [|apply loop_NoDup].
  rewrite loop_get in Hin. split; [done|].
  destruct (folded_id _ _ Hin) as (first & later & Hocc & ->).
  assert (Hf : first ∈ occurrences k l) by (rewrite Hocc; apply list_elem_of_here).
  unfold occurrences in Hf. by apply list_elem_of_filter in Hf as [? _].
Qed.

(** Every merged record is the fold of its driver's occurrences. *)
Lemma mergeLoop_elem l m :
  m ∈ mergeLoop accumulate l ->
  folded accumulate (occurrences (id m) l) = Some m.
Proof.
  unfold mergeLoop, JsMap.values. intros ([k m'] & -> & Hin)%list_elem_of_fmap.
  apply loop_entry in Hin as [Hf Hid]. simpl. by rewrite Hid.
Qed.

(** Every driver of the input has a merged record. *)
Lemma mergeLoop_complete l d m :
  folded accumulate (occurrences d l) = Some m -> m ∈ mergeLoop accumulate l.
Proof.
  rewrite <- loop_get. unfold mergeLoop, JsMap.values. fold (loop l).
  generalize (loop l). intros mp. induction mp as [|[k v] mp IH]; simpl; [done|].
  case_decide.
  - intros [= ->]. apply list_elem_of_here.
  - intros H'. apply list_elem_of_further. by apply IH.
Qed.

(** The merged records list the drivers in first-occurrence order. *)
Lemma mergeLoop_ids l : id <$> mergeLoop accumulate l = firstSeen (id <$> l).
Proof.
  rewrite <- loop_keys. unfold mergeLoop, JsMap.values, JsMap.keys. fold (loop l).
  assert (H : forall k m, (k, m) ∈ loop l -> id m = k).
  { intros k m Hin. by apply loop_entry in Hin as [_ ?]. }
  revert H. generalize (loop l). intros mp H.
  induction mp as [|[k v] mp IH]; [done|].
  rewrite !fmap_cons. simpl. f_equal.
  - apply H, list_elem_of_here.
  - apply IH. intros k' m' Hin. by apply H, list_elem_of_further.
Qed.

Lemma mergeLoop_NoDup l : NoDup (id <$> mergeLoop accumulate l).
Proof. rewrite mergeLoop_ids. apply NoDup_firstSeen. Qed.
End MergeFacts.

(** ** Order of appearance in a list *)

Section Appearance.
Context {A : Type}.
Implicit Types (l k : list A) (a b : A).

(** Two elements at increasing indices appear in that order. *)
Lemma lookup_lt_sublist l i j a b :
  l !! i = Some a -> l !! j = Some b -> (i < j)%nat -> [a; b] `sublist_of` l.
Proof.
  revert i j. induction l as [|x l IH]; intros i j Hi Hj Hlt; [done|].
  destruct i as [|i], j as [|j]; try lia; simpl in *.
  - injection Hi as ->. apply sublist_skip, singleton_sublist_l.
    by eapply list_elem_of_lookup_2.
  - apply sublist_cons. apply (IH i j); [done..|lia].
Qed.

Lemma sublist_filter_mono (P : A -> Prop) `{!forall x, Decision (P x)} l k :
  l `sublist_of` k -> filter P l `sublist_of` filter P k.
Proof.
  induction 1 as [|x l k _ IH|x l k _ IH]; [done|..]; rewrite ?filter_cons.
  - case_decide; [by apply sublist_skip|done].
  - case_decide; [by apply sublist_cons|done].
Qed.

Lemma sublist_fmap_mono {B : Type} (f : A -> B) l k :
  l `sublist_of` k -> f <$> l `sublist_of` f <$> k.
Proof.
  induction 1; rewrite ?fmap_cons; [done|by apply sublist_skip|by apply sublist_cons].
Qed.

Lemma StronglySorted_lookup (Rel : A -> A -> Prop) l i j a b :
  StronglySorted Rel l ->
  l !! i = Some a -> l !! j = Some b -> (i < j)%nat -> Rel a b.
Proof.
  intros Hs. revert i j. induction Hs as [|x l Hs IH Hall]; intros i j Hi Hj Hlt; [done|].
  destruct i as [|i], j as [|j]; try lia; simpl in *.
  - injection Hi as ->. rewrite Forall_forall in Hall. apply Hall.
    by eapply list_elem_of_lookup_2.
  - apply (IH i j); [done..|lia].
Qed.
End Appearance.

(** ** The sort *)

Section SortFacts.
Context {A : Type} (cmp : A -> A -> Z).
Implicit Types (l : list A) (x y : A).

Lemma sort_insert_Permutation x l : sort_insert cmp x l ≡ₚ x :: l.
Proof.
  induction l as [|y l IH]; simpl; [done|].
  destruct (cmp x y <=? 0); [done|]. rewrite IH. apply Permutation_swap.
Qed.

Lemma js_sort_Permutation l : js_sort cmp l ≡ₚ l.
Proof.
  induction l as [|x l IH]; simpl; [done|].
  by rewrite sort_insert_Permutation, IH.
Qed.

Lemma length_js_sort l : length (js_sort cmp l) = length l.
Proof. apply Permutation_length, js_sort_Permutation. Qed.

(** Stability: among elements that the comparator does not separate
    (a class [P] on which it never answers "greater"), the order of the
    input is kept. *)
Lemma sort_insert_filter (P : A -> Prop) `{!forall x, Decision (P x)} x l :
  (forall y, P x -> P y -> cmp x y <= 0) ->
  filter P (sort_insert cmp x l) = filter P (x :: l).
Proof.
  intros Htie. induction l as [|y l IH]; simpl; [done|].
  destruct (cmp x y <=? 0) eqn:E; [done|].
  rewrite (filter_cons _ y), IH, !filter_cons.
  destruct (decide (P x)) as [Hx|]; [|done].
  destruct (decide (P y)) as [Hy|]; [|done].
  apply Z.leb_gt in E. specialize (Htie y Hx Hy). lia.
Qed.

Lemma js_sort_stable (P : A -> Prop) `{!forall x, Decision (P x)} l :
  (forall x y, P x -> P y -> cmp x y <= 0) ->
  filter P (js_sort cmp l) = filter P l.
Proof.
  intros Htie. induction l as [|x l IH]; simpl; [done|].
  rewrite sort_insert_filter by (intros; by apply Htie).
  by rewrite !filter_cons, IH.
Qed.

(** The result is sorted when the comparator is a consistent one. *)
Lemma js_sort_sorted l :
  (forall x y, 0 < cmp x y -> cmp y x <= 0) ->
  (forall x y z, cmp x y <= 0 -> cmp y z <= 0 -> cmp x z <= 0) ->
  StronglySorted (fun x y => cmp x y <= 0) (js_sort cmp l).
Proof.
  intros Htotal Htrans. induction l as [|x l IH]; simpl; [constructor|].
  induction IH as [|y k Hk IHk Hall]; simpl.
  - repeat constructor.
  - destruct (cmp x y <=? 0) eqn:E.
    + apply Z.leb_le in E. constructor; [by constructor|].
      constructor; [done|]. eapply Forall_impl; [exact Hall|].
      intros z Hz. by eapply Htrans.
    + apply Z.leb_gt in E. constructor; [done|].
      rewrite sort_insert_Permutation. constructor; [|done].
      apply Htotal. lia.
Qed.
End SortFacts.

(** ** The comparator and the ranker *)

Section RankerFacts.
Context {R : Type}.
Implicit Types (a b c : MergedStanding R) (l : list (MergedStanding R)).

Lemma comparePoints_neg a b : comparePoints a b < 0 <-> ahead a b.
Proof. unfold comparePoints, ahead. case_decide; lia. Qed.

Lemma comparePoints_zero a b : comparePoints a b = 0 <-> tied a b.
Proof. unfold comparePoints, tied. case_decide; lia. Qed.

Lemma comparePoints_pos a b : 0 < comparePoints a b <-> ahead b a.
Proof. unfold comparePoints, ahead. case_decide; lia. Qed.

Lemma comparePoints_total a b : 0 < comparePoints a b -> comparePoints b a <= 0.
Proof. unfold comparePoints. repeat case_decide; lia. Qed.

Lemma comparePoints_flip a b : comparePoints a b < 0 -> 0 < comparePoints b a.
Proof. unfold comparePoints. repeat case_decide; lia. Qed.

Lemma comparePoints_trans a b c :
  comparePoints a b <= 0 -> comparePoints b c <= 0 -> comparePoints a c <= 0.
Proof. unfold comparePoints. repeat case_decide; lia. Qed.

Lemma sortStandingsByPoints_sorted l :
  StronglySorted (fun a b => comparePoints a b <= 0) (sortStandingsByPoints l).
Proof.
  apply js_sort_sorted; [apply comparePoints_total | apply comparePoints_trans].
Qed.

Lemma sortStandingsByPoints_tied a l :
  filter (tied a) (sortStandingsByPoints l) = filter (tied a) l.
Proof.
  apply js_sort_stable. intros x y Hx Hy.
  assert (tied x y) as Hxy by (unfold tied in *; lia).
  apply comparePoints_zero in Hxy. lia.
Qed.

Lemma assignPositions_lookup l i m :
  assignPositions l !! i = Some m <->
  exists m0, l !! i = Some m0 /\ m = withPosition m0 i.
Proof.
  unfold assignPositions. rewrite list_lookup_imap.
  destruct (l !! i) as [m0|]; simpl.
  - split; [intros [= <-]; eauto | intros (? & [= <-] & ->); done].
  - split; [done | intros (? & ? & _); done].
Qed.

Lemma assignPositions_ids l : id <$> assignPositions l = id <$> l.
Proof.
  apply list_eq. intros i. unfold assignPositions.
  rewrite !list_lookup_fmap, list_lookup_imap. by destruct (l !! i).
Qed.

Lemma assignPositions_positions l :
  position <$> assignPositions l = Z.of_nat <$> seq 1 (length l).
Proof.
  apply list_eq. intros i. unfold assignPositions.
  rewrite !list_lookup_fmap, list_lookup_imap.
  destruct (l !! i) as [m|] eqn:E; simpl.
  - rewrite lookup_seq_lt by (by eapply lookup_lt_Some). simpl. f_equal. lia.
  - rewrite lookup_seq_ge; [done|]. by apply lookup_ge_None.
Qed.

Lemma length_assignPositions l : length (assignPositions l) = length l.
Proof. apply length_imap. Qed.
End RankerFacts.

(** ** What the two mergers share *)

Section BothMergers.
Context {R : Type}.
Implicit Types (src : Source) (e : MergedStanding R) (s : Standing R).

Lemma mergerOf_loop src (l : list (Standing R)) :
  mergerOf src l = mergeLoop (accumulateOf src) l.
Proof. by destruct src. Qed.

Lemma accumulateOf_id src e s : id (accumulateOf src e s) = id e.
Proof. by destruct src. Qed.

Lemma accumulateOf_races src e s :
  races (accumulateOf src e s) = races e ++ races s.
Proof. by destruct src. Qed.

Lemma accumulateOf_pointsAndScore src e s :
  pointsAndScore (accumulateOf src e s) =
  (championshipPoints e + championshipPoints s,
   championshipScore e + championshipScore s).
Proof. by destruct src. Qed.

Lemma fold_races src (later : list (Standing R)) e :
  races (fold_left (accumulateOf src) later e) =
  races e ++ concat (races <$> later).
Proof.
  revert e. induction later as [|s later IH]; intros e; simpl.
  - by rewrite app_nil_r.
  - by rewrite IH, accumulateOf_races, <- app_assoc.
Qed.

Lemma fold_pointsAndScore src (later : list (Standing R)) e :
  pointsAndScore (fold_left (accumulateOf src) later e) =
  (championshipPoints e + sumOf championshipPoints later,
   championshipScore e + sumOf championshipScore later).
Proof.
  revert e. induction later as [|s later IH]; intros e; simpl.
  - unfold pointsAndScore. f_equal; lia.
  - rewrite IH. pose proof (accumulateOf_pointsAndScore src e s) as H.
    unfold pointsAndScore in H. injection H as -> ->. f_equal; lia.
Qed.

Lemma mergerOf_ids src (l : list (Standing R)) :
  id <$> mergerOf src l = firstSeen (id <$> l).
Proof. rewrite mergerOf_loop. apply mergeLoop_ids, accumulateOf_id. Qed.

Lemma mergerOf_elem src (l : list (Standing R)) m :
  m ∈ mergerOf src l ->
  folded (accumulateOf src) (occurrences (id m) l) = Some m.
Proof. rewrite mergerOf_loop. apply mergeLoop_elem, accumulateOf_id. Qed.

Lemma mergerOf_complete src (l : list (Standing R)) d :
  d ∈ id <$> l ->
  exists m, folded (accumulateOf src) (occurrences d l) = Some m
            /\ m ∈ mergerOf src l /\ id m = d.
Proof.
  intros (s & -> & Hs)%list_elem_of_fmap.
  destruct (occurrences (id s) l) as [|first later] eqn:E.
  - assert (s ∈ occurrences (id s) l) as Hin
      by (by apply list_elem_of_filter).
    rewrite E in Hin. by apply elem_of_nil in Hin.
  - eexists. split; [reflexivity|]. split.
    + rewrite mergerOf_loop.
      eapply mergeLoop_complete. by rewrite E.
    + assert (Hf : folded (accumulateOf src) (first :: later)
                   = Some (fold_left (accumulateOf src) later (seed first)))
        by reflexivity.
      apply folded_id in Hf as (f' & l' & [= <- <-] & ->);
        [|apply accumulateOf_id].
      assert (first ∈ occurrences (id s) l) as Hin
        by (rewrite E; apply list_elem_of_here).
      by apply list_elem_of_filter in Hin as [? _].
Qed.
End BothMergers.

(** ** Exact ties keep the order of first occurrence *)

Lemma tied_first_occurrence {R : Type} (src : Source) (l : list (Standing R))
    (i j : nat) (a b : MergedStanding R) :
  sortStandingsByPoints (mergerOf src l) !! i = Some a ->
  sortStandingsByPoints (mergerOf src l) !! j = Some b ->
  tied a b -> (i < j)%nat ->
  (firstOccurrence (id a) l < firstOccurrence (id b) l)%nat.
Proof.
  intros Ha Hb Hab Hlt. apply firstSeen_order.
  rewrite <- (mergerOf_ids src).
  change [id a; id b] with (id <$> [a; b]). apply sublist_fmap_mono.
  assert (Hf : filter (tied a) [a; b] = [a; b]).
  { rewrite !filter_cons, filter_nil.
    rewrite (decide_True (P := tied a a)) by (by split).
    by rewrite (decide_True (P := tied a b)). }
  rewrite <- Hf. etrans; [|apply (sublist_filter (tied a))].
  rewrite <- (sortStandingsByPoints_tied a (mergerOf src l)).
  apply sublist_filter_mono.
  by eapply lookup_lt_sublist.
Qed.

(** ** Looking a record up by its key *)

Section Lookup.
Context {A : Type} (key : A -> string).
Implicit Types (l k : list A) (c : string).

Lemma find_head_filter c l :
  List.find (fun x => bool_decide (key x = c)) l
  = head (filter (fun x => key x = c) l).
Proof.
  induction l as [|x l IH]; simpl; [done|]. rewrite filter_cons.
  destruct (decide (key x = c)) as [E|E].
  - by rewrite bool_decide_eq_true_2.
  - by rewrite bool_decide_eq_false_2.
Qed.

Lemma filter_key_short c l :
  NoDup (key <$> l) -> (length (filter (fun x => key x = c) l) <= 1)%nat.
Proof.
  induction l as [|x l IH]; [simpl; lia|]. rewrite fmap_cons, NoDup_cons.
  intros [Hx Hnd]. rewrite filter_cons. specialize (IH Hnd).
  destruct (decide (key x = c)) as [E|E]; [|done].
  destruct (filter (fun x => key x = c) l) as [|y k] eqn:F; simpl; [lia|].
  exfalso. apply Hx. assert (Hy : y ∈ filter (fun x => key x = c) l)
    by (rewrite F; apply list_elem_of_here).
  apply list_elem_of_filter in Hy as [Hy Hin].
  apply list_elem_of_fmap. exists y. split; [congruence|done].
Qed.

(** With unique keys, a lookup by key does not depend on the order. *)
Lemma find_Permutation c l k :
  NoDup (key <$> l) -> l ≡ₚ k ->
  List.find (fun x => bool_decide (key x = c)) l
  = List.find (fun x => bool_decide (key x = c)) k.
Proof.
  intros Hnd Hp. rewrite !find_head_filter.
  pose proof (filter_key_short c l Hnd) as Hlen.
  assert (Hf : filter (fun x => key x = c) l ≡ₚ filter (fun x => key x = c) k)
    by (by rewrite Hp).
  destruct (filter (fun x => key x = c) l) as [|x [|y l']]; simpl in Hlen.
  - apply Permutation_nil_l in Hf. by rewrite Hf.
  - apply Permutation_singleton_l in Hf. by rewrite Hf.
  - lia.
Qed.
End Lookup.

Section MapLookup.
Context {V : Type}.

Lemma set_NoDup (m : JsMap.t V) k v :
  NoDup (JsMap.keys m) -> NoDup (JsMap.keys (JsMap.set k v m)).
Proof.
  intros Hnd. rewrite keys_set. destruct (JsMap.get k m) eqn:E; [done|].
  apply NoDup_app. split; [done|]. split; [|apply NoDup_singleton].
  intros x Hx ->%list_elem_of_singleton. by apply get_None_keys in E.
Qed.

(** When every value carries its key, finding a value by that key is the
    [get] of the map. *)
Lemma find_values_get (key : V -> string) (m : JsMap.t V) d :
  (forall k v, (k, v) ∈ m -> key v = k) ->
  List.find (fun v => bool_decide (key v = d)) (JsMap.values m) = JsMap.get d m.
Proof.
  unfold JsMap.values. induction m as [|[k v] m IH]; intros Hkey; [done|].
  rewrite fmap_cons. cbn [List.find JsMap.get snd].
  rewrite (Hkey k v) by apply list_elem_of_here.
  destruct (decide (k = d)) as [E|E].
  - by rewrite bool_decide_eq_true_2.
  - rewrite bool_decide_eq_false_2 by done. apply IH.
    intros k' v' Hin. by apply Hkey, list_elem_of_further.
Qed.
End MapLookup.

(** ** The class grouper *)

Section GrouperFacts.
Context {R : Type}.
Implicit Types (all : list (ClassData R)) (c : string).

Lemma buildClassMap_snoc all cd :
  buildClassMap (all ++ [cd]) = groupStep (buildClassMap all) cd.
Proof. unfold buildClassMap. by rewrite fold_left_app. Qed.

(** The map holds, for a class that occurs, the concatenation of all the
    standings reported for it, in order. *)
Lemma buildClassMap_get all c :
  JsMap.get c (buildClassMap all) =
  match filter (fun cd => carClass cd = c) all with
  | [] => None
  | cds => Some (concat (standings <$> cds))
  end.
Proof.
  induction all as [|cd all IH] using rev_ind; [done|].
  rewrite buildClassMap_snoc, filter_app, filter_cons, filter_nil.
  unfold groupStep. destruct (decide (carClass cd = c)) as [<-|Hne].
  - rewrite IH.
    destruct (filter (fun cd' => carClass cd' = carClass cd) all)
      as [|cd0 cds]; rewrite get_set_eq.
    + simpl. by rewrite app_nil_r.
    + rewrite <- app_comm_cons, !fmap_cons, fmap_app, !concat_cons, concat_app.
      simpl. by rewrite app_nil_r, app_assoc.
  - rewrite app_nil_r, <- IH.
    destruct (JsMap.get (carClass cd) (buildClassMap all)); by apply get_set_ne.
Qed.

Lemma buildClassMap_NoDup all : NoDup (JsMap.keys (buildClassMap all)).
Proof.
  induction all as [|cd all IH] using rev_ind; [constructor|].
  rewrite buildClassMap_snoc. unfold groupStep.
  destruct (JsMap.get (carClass cd) (buildClassMap all)); by apply set_NoDup.
Qed.

Lemma buildMergedResults_classes merge (m : JsMap.t (list (Standing R))) :
  carClass <$> buildMergedResults merge m = JsMap.keys m.
Proof.
  unfold buildMergedResults, JsMap.entries, JsMap.keys.
  induction m as [|[k v] m IH]; [done|].
  rewrite map_cons, !fmap_cons. simpl. by rewrite IH.
Qed.

Lemma buildMergedResults_find merge (m : JsMap.t (list (Standing R))) c :
  List.find (fun cd => bool_decide (carClass cd = c)) (buildMergedResults merge m)
  = (fun l => mkClassData c (rankClass merge l)) <$> JsMap.get c m.
Proof.
  unfold buildMergedResults, JsMap.entries.
  induction m as [|[k v] m IH]; [done|]. simpl.
  destruct (decide (k = c)) as [->|E].
  - by rewrite bool_decide_eq_true_2.
  - by rewrite bool_decide_eq_false_2.
Qed.
End GrouperFacts.

(** ** A driver's record in the results of a run *)

Section DriverRecord.
Context {R : Type}.
Implicit Types (src : Source) (l : list (Standing R)) (c d : string).

Lemma find_mergerOf src l d :
  List.find (fun m => bool_decide (id m = d)) (mergerOf src l)
  = folded (accumulateOf src) (occurrences d l).
Proof.
  rewrite mergerOf_loop. unfold mergeLoop.
  rewrite (find_values_get id).
  - apply loop_get.
  - intros k v Hin. eapply loop_entry; [apply accumulateOf_id|exact Hin].
Qed.

(** Ranking changes the position of a record and nothing else: any view
    [f] of a record that ignores the position is the same before and
    after. *)
Section PositionBlind.
Context {B : Type} (f : MergedStanding R -> B).
Hypothesis f_blind : forall m i, f (withPosition m i) = f m.

Lemma find_assignPositions (S : list (MergedStanding R)) d :
  f <$> List.find (fun m => bool_decide (id m = d)) (assignPositions S)
  = f <$> List.find (fun m => bool_decide (id m = d)) S.
Proof.
  unfold assignPositions.
  assert (H : forall (g : nat -> nat),
    f <$> List.find (fun m => bool_decide (id m = d))
            (imap (fun i s => withPosition s (g i)) S)
    = f <$> List.find (fun m => bool_decide (id m = d)) S).
  { induction S as [|s S IH]; intros g; [done|]. simpl.
    destruct (bool_decide (id s = d)); [simpl; by rewrite f_blind|].
    apply (IH (g ∘ Datatypes.S)). }
  apply (H (fun i => i)).
Qed.

Lemma find_rankClass src l d :
  f <$> List.find (fun m => bool_decide (id m = d)) (rankClass (mergerOf src) l)
  = f <$> folded (accumulateOf src) (occurrences d l).
Proof.
  unfold rankClass. rewrite find_assignPositions. f_equal.
  rewrite <- find_mergerOf. symmetry. apply (find_Permutation id).
  - rewrite mergerOf_ids. apply NoDup_firstSeen.
  - symmetry. apply js_sort_Permutation.
Qed.

(** A driver's record in the results of a run is, up to its position, the
    fold of the driver's contributions. *)
Lemma lookupDriver_contributions src localeCompare c d
    (fragments : list (list (ClassData R))) :
  f <$>
    lookupDriver c d
      (mergedResults localeCompare (mergerOf src) (concat fragments))
  = f <$> folded (accumulateOf src) (contributions c d fragments).
Proof.
  unfold lookupDriver, mergedResults, contributions, classStandings.
  rewrite <- (find_Permutation carClass c
                (buildMergedResults (mergerOf src) (buildClassMap (concat fragments)))).
  - rewrite buildMergedResults_find, buildClassMap_get.
    destruct (filter (fun cd => carClass cd = c) (concat fragments))
      as [|cd cds]; [done|].
    simpl. apply find_rankClass.
  - rewrite buildMergedResults_classes. apply buildClassMap_NoDup.
  - symmetry. apply js_sort_Permutation.
Qed.
End PositionBlind.

(** ... that is, the sums over those contributions. *)
Lemma folded_pointsAndScore src (l : list (Standing R)) :
  pointsAndScore <$> folded (accumulateOf src) l
  = match l with
    | [] => None
    | _ => Some (sumOf championshipPoints l, sumOf championshipScore l)
    end.
Proof.
  destruct l as [|first later]; [done|]. simpl.
  by rewrite fold_pointsAndScore.
Qed.
End DriverRecord.

(** ** Widths of the formatted columns *)

Section Widths.
Implicit Types (s t text : string) (w n : nat).

Lemma length_append s t :
  String.length (s +:+ t) = (String.length s + String.length t)%nat.
Proof. induction s as [|c s IH]; simpl; [done|]. by rewrite IH. Qed.

Lemma length_repeat_string (c : ascii) n :
  String.length (string_of_list_ascii (repeat c n)) = n.
Proof. induction n as [|n IH]; simpl; [done|]. by rewrite IH. Qed.

Lemma length_spaces n : String.length (spaces n) = n.
Proof. apply length_repeat_string. Qed.

Lemma length_substring0 n s :
  String.length (substring0 n s) = Nat.min n (String.length s).
Proof.
  unfold substring0. revert n. induction s as [|c s IH]; intros [|n]; simpl;
    try done. by rewrite IH.
Qed.

Lemma length_padStart s w :
  String.length (padStart s w) = Nat.max w (String.length s).
Proof. unfold padStart. rewrite length_append, length_spaces. lia. Qed.

Lemma length_padEnd s w :
  String.length (padEnd s w) = Nat.max w (String.length s).
Proof. unfold padEnd. rewrite length_append, length_spaces. lia. Qed.

(** merge-results.ts: a text column is cut to [w - 1] characters and a
    dot when it is too long, and filled with spaces when it is short. *)
Lemma length_truncateText text w :
  (1 <= w)%nat ->
  String.length (padEnd (MergeResults.truncateText text w) w) = w.
Proof.
  intros Hw. rewrite length_padEnd. unfold MergeResults.truncateText.
  destruct (String.length text <=? w)%nat eqn:E.
  - apply Nat.leb_le in E. lia.
  - apply Nat.leb_gt in E. rewrite length_append, length_substring0. simpl. lia.
Qed.



(** part_000: a text column is cut to [w - 3] characters and three dots
    when it is too long, and filled with spaces when it is short. *)
Lemma length_truncateAndPad text w :
  (3 <= w)%nat -> String.length (Part000.truncateAndPad text w) = w.
Proof.
  intros Hw. unfold Part000.truncateAndPad.
  destruct (w <? String.length text)%nat eqn:E.
  - apply Nat.ltb_lt in E. rewrite length_append, length_substring0. simpl. lia.
  - apply Nat.ltb_ge in E. rewrite length_padEnd. lia.
Qed.

(** Integers of at most three characters. *)
Lemma length_numberToString (z : Z) :
  -99 <= z <= 999 -> (String.length (numberToString z) <= 3)%nat.
Proof.
  intros Hz.
  assert (H : forallb
                (fun k => (String.length (numberToString (Z.of_nat k - 99)) <=? 3)%nat)
                (seq 0 1099) = true) by (vm_compute; reflexivity).
  rewrite forallb_forall in H. specialize (H (Z.to_nat (z + 99))).
  rewrite Z2Nat.id in H by lia. replace (z + 99 - 99) with z in H by lia.
  apply Nat.leb_le, H, in_seq. lia.
Qed.

Lemma length_position_label (z : Z) :
  1 <= z <= 999 -> (String.length (numberToString z +:+ ".") <= 4)%nat.
Proof.
  intros Hz. rewrite length_append. simpl.
  pose proof (length_numberToString z). lia.
Qed.
End Widths.

(** ** The five numeric fields in each merger *)

Ltac tuple_lia :=
  repeat match goal with
         | |- pair _ _ = pair _ _ => apply (f_equal2 pair)
         end; lia.

Section NumericFields.
Context {R : Type}.
Implicit Types (l later : list (Standing R)) (e m : MergedStanding R).

Lemma fold_numericFields_merge_results later e :
  numericFields (fold_left MergeResults.accumulate later e) =
  (championshipPoints e + sumOf championshipPoints later,
   championshipPenalties e + sumOf championshipPenalties later,
   championshipScore e + sumOf championshipScore later,
   pointsAdjustment e + sumOf pointsAdjustment later,
   actualPoints e + sumOf actualPoints later).
Proof.
  revert e. induction later as [|s later IH]; intros e; simpl.
  - unfold numericFields. tuple_lia.
  - rewrite IH. simpl. tuple_lia.
Qed.

Lemma fold_numericFields_part_000 later e :
  numericFields (fold_left Part000.accumulate later e) =
  (championshipPoints e + sumOf championshipPoints later,
   championshipPenalties e,
   championshipScore e + sumOf championshipScore later,
   pointsAdjustment e,
   actualPoints e + sumOf actualPoints later).
Proof.
  revert e. induction later as [|s later IH]; intros e; simpl.
  - unfold numericFields. tuple_lia.
  - rewrite IH. simpl. tuple_lia.
Qed.

(** merge-results.ts sums all five fields over a driver's records. *)
Lemma merge_results_sums_five l m :
  m ∈ MergeResults.mergeStandingsByDriver l ->
  numericFields m =
  (sumOf championshipPoints (occurrences (id m) l),
   sumOf championshipPenalties (occurrences (id m) l),
   sumOf championshipScore (occurrences (id m) l),
   sumOf pointsAdjustment (occurrences (id m) l),
   sumOf actualPoints (occurrences (id m) l)).
Proof.
  intros Hin. apply (mergerOf_elem merge_results_ts) in Hin.
  destruct (occurrences (id m) l) as [|first later]; [done|].
  injection Hin as <-. by rewrite fold_numericFields_merge_results.
Qed.

(** part_000 sums three of them and keeps the penalties and the
    adjustment of the driver's first record. *)
Lemma part_000_sums_three l m :
  m ∈ Part000.mergeStandingsByDriver l ->
  exists first later,
    occurrences (id m) l = first :: later /\
    numericFields m =
    (sumOf championshipPoints (first :: later),
     championshipPenalties first,
     sumOf championshipScore (first :: later),
     pointsAdjustment first,
     sumOf actualPoints (first :: later)).
Proof.
  intros Hin. apply (mergerOf_elem part_000) in Hin.
  destruct (occurrences (id m) l) as [|first later]; [done|].
  injection Hin as <-. exists first, later. split; [done|].
  by rewrite fold_numericFields_part_000.
Qed.
End NumericFields.

(** ** The loader *)

Section LoaderFacts.
Context {content : Type} (JSON_parse : content -> option JSON).
Implicit Types (files : list (string * content)) (acc : Except (list JSON)).

Lemma readStep_threw e file : readStep JSON_parse (threw e) file = threw e.
Proof. done. Qed.

Lemma fold_readStep_threw e files :
  fold_left (readStep JSON_parse) files (threw e) = threw e.
Proof. induction files as [|file files IH]; simpl; [done|]. apply IH. Qed.

Lemma readStep_unloadable acc file :
  unloadable JSON_parse file.2 -> exists e, readStep JSON_parse acc file = threw e.
Proof.
  intros Hbad. unfold readStep, parseE. destruct acc as [e|acc]; [by exists e|].
  cbn [mbind Except_bind bindE].
  destruct Hbad as [-> | (v & -> & Harr & Hstr)]; [by eexists|].
  destruct v; try discriminate; by eexists.
Qed.

(** One unloadable file makes the whole load fail, wherever it stands in
    the listing and whatever the other files hold. *)
Lemma readAllJsonFiles_unloadable files name c :
  (name, c) ∈ files -> endsWith name ".json" = true ->
  unloadable JSON_parse c ->
  exists e, readAllJsonFiles JSON_parse files = threw e.
Proof.
  intros Hin Hname Hbad. unfold readAllJsonFiles.
  assert (Hf : (name, c) ∈ List.filter (fun file => endsWith file.1 ".json") files).
  { apply list_elem_of_In, filter_In. split; [by apply list_elem_of_In|done]. }
  revert Hf. generalize (List.filter (fun file => endsWith file.1 ".json") files).
  generalize (returned [] : Except (list JSON)).
  intros acc l. revert acc. induction l as [|file l IH]; intros acc Hf.
  - by apply elem_of_nil in Hf.
  - simpl. apply elem_of_cons in Hf as [<-|Hf]; [|by apply IH].
    destruct (readStep_unloadable acc (name, c) Hbad) as [e ->].
    exists e. apply fold_readStep_threw.
Qed.
End LoaderFacts.

(** ** Where the two mergers agree *)

Section Agreement.
Context {R : Type}.
Implicit Types (l : list (Standing R)).

Lemma alike_get (m1 m2 : JsMap.t (MergedStanding R)) k :
  alike m1 m2 ->
  match JsMap.get k m1, JsMap.get k m2 with
  | Some a, Some b => sharedFields a = sharedFields b
  | None, None => True
  | _, _ => False
  end.
Proof.
  induction 1 as [|[k1 v1] [k2 v2] m1 m2 [Hk Hv] _ IH]; simpl in *; [done|].
  subst k2. by case_decide.
Qed.

Lemma alike_set (m1 m2 : JsMap.t (MergedStanding R)) k a b :
  alike m1 m2 -> sharedFields a = sharedFields b ->
  alike (JsMap.set k a m1) (JsMap.set k b m2).
Proof.
  intros H Hab.
  induction H as [|[k1 v1] [k2 v2] m1 m2 [Hk Hv] H IH]; simpl in *.
  - by repeat constructor.
  - subst k2. case_decide; constructor; done.
Qed.

Lemma alike_step (m1 m2 : JsMap.t (MergedStanding R)) s :
  alike m1 m2 ->
  alike (mergeStep MergeResults.accumulate m1 s)
        (mergeStep Part000.accumulate m2 s).
Proof.
  intros H. unfold mergeStep. pose proof (alike_get m1 m2 (id s) H) as Hg.
  destruct (JsMap.get (id s) m1) as [a|], (JsMap.get (id s) m2) as [b|];
    try done; apply alike_set; try done.
  unfold sharedFields in *. simpl. congruence.
Qed.

(** On every input the two mergers return the same drivers in the same
    order, with the same values in all fields but the penalties and the
    adjustment. *)
Lemma mergers_agree_on_shared_fields l :
  sharedFields <$> MergeResults.mergeStandingsByDriver l
  = sharedFields <$> Part000.mergeStandingsByDriver l.
Proof.
  unfold MergeResults.mergeStandingsByDriver, Part000.mergeStandingsByDriver,
    mergeLoop.
  assert (H : forall ma mb, alike ma mb ->
            alike (fold_left (mergeStep MergeResults.accumulate) l ma)
                  (fold_left (mergeStep Part000.accumulate) l mb)).
  { induction l as [|s l IH]; intros ma mb H; simpl; [done|].
    by apply IH, alike_step. }
  specialize (H JsMap.empty JsMap.empty ltac:(constructor)).
  unfold JsMap.values. induction H as [|x y m1 m2 [_ Hv] _ IH]; [done|].
  rewrite !fmap_cons. by f_equal.
Qed.

Lemma set_fresh {V : Type} (m : JsMap.t V) k v :
  JsMap.get k m = None -> JsMap.set k v m = m ++ [(k, v)].
Proof.
  induction m as [|[k' v'] m IH]; simpl; [done|].
  case_decide; [done|]. intros Hg. by rewrite IH.
Qed.

(** Without a repeated driver nothing is accumulated: each record is the
    seed of its standing, in both files. *)
Lemma mergerOf_no_repeats src l :
  NoDup (id <$> l) -> mergerOf src l = seed <$> l.
Proof.
  rewrite mergerOf_loop. unfold mergeLoop, JsMap.values. intros Hnd.
  assert (H : fold_left (mergeStep (accumulateOf src)) l JsMap.empty
              = (fun s => (id s, seed s)) <$> l).
  { induction l as [|s l IH] using rev_ind; [done|].
    rewrite fmap_app in Hnd. apply NoDup_app in Hnd as (Hl & Hs & _).
    rewrite fold_left_app, IH by done. simpl. unfold mergeStep.
    assert (Hg : JsMap.get (id s) ((fun s => (id s, seed s)) <$> l) = None).
    { apply get_None_keys. unfold JsMap.keys. rewrite <- list_fmap_compose.
      intros Hin. apply (Hs (id s) Hin), list_elem_of_here. }
    rewrite Hg, set_fresh by done. by rewrite fmap_app. }
  rewrite H, <- list_fmap_compose. done.
Qed.

Lemma mergers_agree_without_repeats l :
  NoDup (id <$> l) ->
  MergeResults.mergeStandingsByDriver l = Part000.mergeStandingsByDriver l.
Proof.
  intros Hnd.
  change (mergerOf merge_results_ts l = mergerOf part_000 l).
  by rewrite !mergerOf_no_repeats.
Qed.
End Agreement.

(** ** Fragments *)

(** Spreading a class's standings over several fragments, one part each,
    leaves every driver's contributions as they are in a single fragment. *)
Lemma contributions_split {R : Type} (c d : string)
    (parts : list (list (Standing R))) :
  contributions c d ((fun part => [mkClassData c part]) <$> parts)
  = contributions c d [[mkClassData c (concat parts)]].
Proof.
  unfold contributions, classStandings. f_equal.
  transitivity (concat parts).
  - induction parts as [|part parts IH]; [done|].
    rewrite fmap_cons, concat_cons. cbn [app].
    rewrite filter_cons, decide_True by done.
    rewrite fmap_cons, concat_cons. cbn [standings]. by rewrite IH.
  - cbn [concat app]. rewrite filter_cons, decide_True by done.
    rewrite filter_nil. cbn. by rewrite app_nil_r.
Qed.

(** The run on the fragment with the incomplete race entry: it does not
    have the declared shape and both files hand a report to the sink. *)
Lemma raceless_report (src : Source) :
  wellShaped raceless = false
  /\ exists report,
       runOf src parsed byteCompare alwaysThrows [("gt3.json", Some raceless)]
       = returned report.
Proof. split; [reflexivity|]. destruct src; eexists; reflexivity. Qed.

(** ** Columns *)

Section Columns.
Implicit Types (text col : string) (w : nat).




End Columns.

(** ** Sums within the safe-integer range *)

Section SafeRange.
Context {R : Type}.
Implicit Types (f : Standing R -> Z) (l : list (Standing R)).

Lemma sumOf_cons f s l : sumOf f (s :: l) = f s + sumOf f l.
Proof. done. Qed.

Lemma abs_sumOf f l : Z.abs (sumOf f l) <= sumOf (fun s => Z.abs (f s)) l.
Proof.
  induction l as [|s l IH]; [done|]. rewrite !sumOf_cons. lia.
Qed.

Lemma sumOf_abs_nonneg f l : 0 <= sumOf (fun s => Z.abs (f s)) l.
Proof.
  induction l as [|s l IH]; [done|]. rewrite sumOf_cons. lia.
Qed.

Lemma sumOf_abs_take f l n :
  sumOf (fun s => Z.abs (f s)) (take n l) <= sumOf (fun s => Z.abs (f s)) l.
Proof.
  revert n. induction l as [|s l IH]; intros [|n]; [done|done|..].
  - apply (sumOf_abs_nonneg f (s :: l)).
  - change (take (S n) (s :: l)) with (s :: take n l).
    rewrite !sumOf_cons. specialize (IH n). lia.
Qed.

(** Within the range every running total, the sum of any number of leading
    records, is a safe integer: the additions of the code are exact. *)
Lemma running_totals_safe f l n :
  withinSafeRange f l -> Z.abs (sumOf f (take n l)) <= MAX_SAFE_INTEGER.
Proof.
  unfold withinSafeRange. intros H.
  pose proof (abs_sumOf f (take n l)). pose proof (sumOf_abs_take f l n). lia.
Qed.
End SafeRange.

(** * The claims *)

(** C3 (sort correctness).  In the ranked standings of a class, for two
    entries that are not tied on both keys, the first appears before the
    second exactly when it has more championship points, or as many points
    and a higher championship score.  Holds with either merger. *)
Theorem C3_sort_correctness {R : Type} (src : Source) (l : list (Standing R))
    (i j : nat) (a b : MergedStanding R) :
  rankClass (mergerOf src) l !! i = Some a ->
  rankClass (mergerOf src) l !! j = Some b ->
  ~ tied a b ->
  ((i < j)%nat <-> ahead a b).
Proof.
  unfold rankClass. intros Ha Hb Hnt.
  apply assignPositions_lookup in Ha as (a0 & Ha & ->).
  apply assignPositions_lookup in Hb as (b0 & Hb & ->).
  change (~ tied a0 b0) in Hnt. change ((i < j)%nat <-> ahead a0 b0).
  pose proof (sortStandingsByPoints_sorted (mergerOf src l)) as Hs.
  rewrite <- comparePoints_neg.
  assert (Hz : comparePoints a0 b0 <> 0) by (by rewrite comparePoints_zero).
  split.
  - intros Hlt.
    pose proof (StronglySorted_lookup _ _ _ _ _ _ Hs Ha Hb Hlt) as Hle.
    simpl in Hle. lia.
  - intros Hneg. destruct (lt_eq_lt_dec i j) as [[? | ->] | Hgt]; [done|..].
    + rewrite Ha in Hb. injection Hb as ->. destruct Hnt. by split.
    + pose proof (StronglySorted_lookup _ _ _ _ _ _ Hs Hb Ha Hgt) as Hle.
      simpl in Hle. pose proof (comparePoints_flip a0 b0). lia.
Qed.

(** A run of C3: Bob (9 points) and Alice (10 + 8 points). *)
Lemma C3_sort_correctness_witness :
  (0 < 1)%nat <->
  ahead (mkStanding 1 "Alice" 7 "Porsche" 18 1 8 0 18 [1%nat; 2%nat])
        (mkStanding 2 "Bob" 7 "Porsche" 9 0 9 0 9 [3%nat]).
Proof.
  apply (C3_sort_correctness part_000
           [entry "Bob" 9 0 9 [3%nat]; entry "Alice" 10 1 5 [1%nat];
            entry "Alice" 8 2 3 [2%nat]]).
  - reflexivity.
  - reflexivity.
  - unfold tied. simpl. lia.
Defined.

(** C4 (rank stability).  Two ranked entries with equal championship
    points and equal championship score stand in the ranked output in the
    order in which their drivers first occur in the class's input list.
    Holds with either merger. *)
Theorem C4_rank_stability {R : Type} (src : Source) (l : list (Standing R))
    (i j : nat) (a b : MergedStanding R) :
  rankClass (mergerOf src) l !! i = Some a ->
  rankClass (mergerOf src) l !! j = Some b ->
  tied a b ->
  ((i < j)%nat <->
   (firstOccurrence (id a) l < firstOccurrence (id b) l)%nat).
Proof.
  unfold rankClass. intros Ha Hb Hab.
  apply assignPositions_lookup in Ha as (a0 & Ha & ->).
  apply assignPositions_lookup in Hb as (b0 & Hb & ->).
  change (tied a0 b0) in Hab. simpl.
  split.
  - intros Hlt. by eapply tied_first_occurrence.
  - intros Hocc. destruct (lt_eq_lt_dec i j) as [[? | ->] | Hgt]; [done|..].
    + rewrite Ha in Hb. injection Hb as ->. lia.
    + assert (tied b0 a0) as Hba by (destruct Hab; by split).
      pose proof (tied_first_occurrence src l j i b0 a0 Hb Ha Hba Hgt). lia.
Qed.

(** A run of C4: Bob first occurs before Alice, both end on 18 points and
    score 8, and Bob is ranked first. *)
Lemma C4_rank_stability_witness :
  (1 < 2)%nat <->
  (firstOccurrence "Bob"
     [entry "Carl" 30 0 1 []; entry "Bob" 18 0 8 []; entry "Alice" 10 1 5 [];
      entry "Alice" 8 2 3 []]
   < firstOccurrence "Alice"
     [entry "Carl" 30 0 1 []; entry "Bob" 18 0 8 []; entry "Alice" 10 1 5 [];
      entry "Alice" 8 2 3 []])%nat.
Proof.
  apply (C4_rank_stability merge_results_ts
           [entry "Carl" 30 0 1 []; entry "Bob" 18 0 8 [];
            entry "Alice" 10 1 5 []; entry "Alice" 8 2 3 []]
           1 2
           (mkStanding 2 "Bob" 7 "Porsche" 18 0 8 0 18 [])
           (mkStanding 3 "Alice" 7 "Porsche" 18 3 8 0 18 [])).
  - reflexivity.
  - reflexivity.
  - split; reflexivity.
Defined.

(** C7 (dense positions).  For a class with K merged drivers the positions
    of the ranked output are 1, 2, ..., K in this order: position i+1 at
    sorted index i, every value of 1..K exactly once.  Holds with either
    merger. *)
Theorem C7_dense_positions {R : Type} (src : Source) (l : list (Standing R)) :
  position <$> rankClass (mergerOf src) l
  = Z.of_nat <$> seq 1 (length (mergerOf src l)).
Proof.
  unfold rankClass, sortStandingsByPoints.
  by rewrite assignPositions_positions, length_js_sort.
Qed.

(** C8 (unique identities).  The merged standings of a class hold no two
    entries with the same driver identity, and neither do the ranked
    standings.  Holds with either merger. *)
Theorem C8_unique_identity {R : Type} (src : Source) (l : list (Standing R)) :
  NoDup (id <$> mergerOf src l)
  /\ NoDup (id <$> rankClass (mergerOf src) l).
Proof.
  assert (Hm : NoDup (id <$> mergerOf src l)).
  { rewrite mergerOf_ids. apply NoDup_firstSeen. }
  split; [done|].
  unfold rankClass, sortStandingsByPoints. rewrite assignPositions_ids.
  by rewrite (js_sort_Permutation comparePoints (mergerOf src l)).
Qed.

(** C6 (race concatenation).  A driver with contributions to a class has
    a record in the results of the run, and the race list of that record is
    the concatenation, in order of occurrence across the fragments, of the
    race lists of the contributing records: nothing reordered, nothing
    dropped.  Holds with either merger and any class ordering. *)
Theorem C6_race_concatenation {R : Type} (src : Source)
    (localeCompare : string -> string -> Z) (c d : string)
    (fragments : list (list (ClassData R))) :
  contributions c d fragments <> [] ->
  exists m,
    lookupDriver c d
      (mergedResults localeCompare (mergerOf src) (concat fragments)) = Some m
    /\ races m = concat (races <$> contributions c d fragments).
Proof.
  intros Hne.
  pose proof (lookupDriver_contributions races (fun _ _ => eq_refl)
                src localeCompare c d fragments) as H.
  destruct (contributions c d fragments) as [|first later]; [done|].
  simpl in H. rewrite fold_races in H.
  destruct (lookupDriver c d _) as [m|]; [|discriminate].
  exists m. split; [done|]. by injection H.
Qed.

(** A run of C6: race lists [A,B] and [C] (here 1, 2 and 3), reported by
    two fragments, merge to [A,B,C]. *)
Lemma C6_race_concatenation_witness :
  exists m : MergedStanding nat,
    lookupDriver "GT3" "Alice"
      (mergedResults byteCompare (mergerOf part_000)
         (concat
            [ [mkClassData "GT3"
                 [entry "Alice" 10 0 5 [1%nat; 2%nat]; entry "Bob" 9 0 9 [2%nat]]];
              [mkClassData "GT3" [entry "Alice" 8 0 3 [3%nat]]] ]))
    = Some m
    /\ races m =
       concat (races <$>
                 [entry "Alice" 10 0 5 [1%nat; 2%nat]; entry "Alice" 8 0 3 [3%nat]]).
Proof.
  apply (C6_race_concatenation part_000 byteCompare "GT3" "Alice"
           [ [mkClassData "GT3"
                [entry "Alice" 10 0 5 [1%nat; 2%nat]; entry "Bob" 9 0 9 [2%nat]]];
             [mkClassData "GT3" [entry "Alice" 8 0 3 [3%nat]]] ]).
  discriminate.
Defined.

(** C5 (re-partition).  When two sequences of fragments carry the same
    contributions of a driver to a class, in the same order, whatever the
    number of fragments they are spread over, the driver has a record in
    the results of both runs, with the same championship points and the
    same championship score; and these are the sums of the points and of
    the scores of the contributions (within the safe-integer range, where
    the additions of the code are exact).  Holds with either merger and
    any class ordering. *)
Theorem C5_repartition {R : Type} (src : Source)
    (localeCompare : string -> string -> Z) (c d : string)
    (fragments fragments' : list (list (ClassData R))) :
  contributions c d fragments = contributions c d fragments' ->
  contributions c d fragments <> [] ->
  exists m m',
    lookupDriver c d
      (mergedResults localeCompare (mergerOf src) (concat fragments)) = Some m
    /\ lookupDriver c d
         (mergedResults localeCompare (mergerOf src) (concat fragments'))
       = Some m'
    /\ pointsAndScore m = pointsAndScore m'
    /\ (withinSafeRange championshipPoints (contributions c d fragments) ->
        withinSafeRange championshipScore (contributions c d fragments) ->
        pointsAndScore m
        = (sumOf championshipPoints (contributions c d fragments),
           sumOf championshipScore (contributions c d fragments))).
Proof.
  intros Heq Hne.
  pose proof (lookupDriver_contributions pointsAndScore (fun _ _ => eq_refl)
                src localeCompare c d fragments) as H.
  pose proof (lookupDriver_contributions pointsAndScore (fun _ _ => eq_refl)
                src localeCompare c d fragments') as H'.
  rewrite <- Heq in H'. rewrite folded_pointsAndScore in H, H'.
  destruct (contributions c d fragments) as [|first later] eqn:E; [done|].
  destruct (lookupDriver c d (mergedResults _ _ (concat fragments)))
    as [m|]; [|discriminate].
  destruct (lookupDriver c d (mergedResults _ _ (concat fragments')))
    as [m'|]; [|discriminate].
  simpl in H, H'. apply (inj Some) in H. apply (inj Some) in H'.
  exists m, m'. split; [done|]. split; [done|]. split; [congruence|].
  by intros _ _.
Qed.

(** A run of C5: Alice's three GT3 records spread over three fragments, and
    the same three records in one fragment: 23 points and score 9. *)
Lemma C5_repartition_witness :
  exists m m' : MergedStanding nat,
    lookupDriver "GT3" "Alice"
      (mergedResults byteCompare (mergerOf part_000)
         (concat
            [ [mkClassData "GT3" [entry "Alice" 10 1 5 [1%nat]; entry "Bob" 9 0 9 []]];
              [mkClassData "GT3" [entry "Alice" 8 2 3 [2%nat]]];
              [mkClassData "GT4" [entry "Alice" 100 0 100 []];
               mkClassData "GT3" [entry "Alice" 5 0 1 [3%nat]]] ]))
    = Some m
    /\ lookupDriver "GT3" "Alice"
         (mergedResults byteCompare (mergerOf part_000)
            (concat
               [ [mkClassData "GT3"
                    [entry "Alice" 10 1 5 [1%nat]; entry "Alice" 8 2 3 [2%nat];
                     entry "Alice" 5 0 1 [3%nat]; entry "Bob" 9 0 9 []]] ]))
       = Some m'
    /\ pointsAndScore m = pointsAndScore m'
    /\ pointsAndScore m = (23, 9).
Proof.
  destruct (C5_repartition part_000 byteCompare "GT3" "Alice"
              [ [mkClassData "GT3" [entry "Alice" 10 1 5 [1%nat]; entry "Bob" 9 0 9 []]];
                [mkClassData "GT3" [entry "Alice" 8 2 3 [2%nat]]];
                [mkClassData "GT4" [entry "Alice" 100 0 100 []];
                 mkClassData "GT3" [entry "Alice" 5 0 1 [3%nat]]] ]
              [ [mkClassData "GT3"
                   [entry "Alice" 10 1 5 [1%nat]; entry "Alice" 8 2 3 [2%nat];
                    entry "Alice" 5 0 1 [3%nat]; entry "Bob" 9 0 9 []]] ]
              eq_refl ltac:(discriminate))
    as (m & m' & Hm & Hm' & Heq & Hsum).
  exists m, m'. repeat split; try done.
  apply Hsum; unfold withinSafeRange; vm_compute; discriminate.
Defined.

(** C1 (merge policy).  On two records of one driver, merge-results.ts
    sums all five numeric fields, (18, 3, 8, 6, 21), while part_000 leaves
    the penalties and the adjustment at the values of the first record,
    (18, 1, 8, 2, 21): "in every implementation" fails at part_000. *)
Theorem C1_merge_policy :
  numericFields <$> MergeResults.mergeStandingsByDriver twoRecords
    = [(18, 3, 8, 6, 21)]
  /\ numericFields <$> Part000.mergeStandingsByDriver twoRecords
    = [(18, 1, 8, 2, 21)].
Proof. split; reflexivity. Qed.

(** C10 (sibling mergers).  The two implementations of
    [mergeStandingsByDriver] return different lists on two records of one
    driver: they differ in championshipPenalties and pointsAdjustment. *)
Theorem C10_mergers_differ :
  MergeResults.mergeStandingsByDriver twoRecords
  <> Part000.mergeStandingsByDriver twoRecords.
Proof. intros H. vm_compute in H. discriminate. Qed.




(** C9 (all-or-nothing load), as the code has it.  If the content of any
    fragment file is not valid JSON, or parses to a value that is neither
    an array nor a string, the run ends with an error and hands no report
    to the sink, whatever the other fragments hold.  Holds for both
    files, any [JSON.parse], any class ordering. *)
Theorem C9_unloadable_fragment {content : Type} (src : Source)
    (JSON_parse : content -> option JSON)
    (localeCompare : string -> string -> Z)
    (untypedRun : list JSON -> Except string)
    (files : list (string * content)) (name : string) (c : content) :
  (name, c) ∈ files ->
  endsWith name ".json" = true ->
  unloadable JSON_parse c ->
  exists e, runOf src JSON_parse localeCompare untypedRun files = threw e.
Proof.
  intros Hin Hname Hbad.
  destruct (readAllJsonFiles_unloadable JSON_parse files name c Hin Hname Hbad)
    as [e He].
  exists e. destruct src; simpl;
    unfold MergeResults.mergeAndSortResults, Part000.mergeAndSortResults,
      mergeAndSortResults; by rewrite He.
Qed.

(** A run of C9: a well-formed fragment followed by one that is not JSON. *)
Lemma C9_unloadable_fragment_witness :
  exists e,
    runOf part_000 parsed byteCompare alwaysThrows
      [("a.json", Some (JArr [])); ("b.json", None)] = threw e.
Proof.
  apply (C9_unloadable_fragment part_000 parsed byteCompare alwaysThrows
           [("a.json", Some (JArr [])); ("b.json", None)] "b.json" None).
  - apply list_elem_of_further, list_elem_of_here.
  - reflexivity.
  - left. reflexivity.
Defined.

(** C9 as stated fails.  A fragment whose race entry lacks five of its six
    fields does not deserialize into the declared shape, and yet the run
    returns a report: the loader never checks the shape, and nothing
    downstream reads a field of a race. *)
Lemma C9_counterexample :
  ~ (forall (src : Source) (files : list (string * option JSON))
       (name : string) (c : option JSON),
       (name, c) ∈ files ->
       endsWith name ".json" = true ->
       malformed parsed c ->
       exists e, runOf src parsed byteCompare alwaysThrows files = threw e).
Proof.
  intros H.
  destruct (H merge_results_ts [("gt3.json", Some raceless)] "gt3.json"
              (Some raceless)) as [e He].
  - apply list_elem_of_here.
  - reflexivity.
  - reflexivity.
  - vm_compute in He. discriminate.
Qed.

(** * Further properties of the code *)

(** ** The loader *)

Section LoaderMore.
Context {content : Type} (JSON_parse : content -> option JSON).
Implicit Types (files : list (string * content)).

Lemma fold_readStep_arrays files (arrays : list (list JSON)) (acc : list JSON) :
  Forall2 (fun file items => JSON_parse file.2 = Some (JArr items)) files arrays ->
  fold_left (readStep JSON_parse) files (returned acc)
  = returned (acc ++ concat arrays).
Proof.
  intros H. revert acc.
  induction H as [|file items files arrays Hp _ IH]; intros acc.
  - simpl. by rewrite app_nil_r.
  - assert (Hs : readStep JSON_parse (returned acc) file = returned (acc ++ items)).
    { unfold readStep, parseE. by rewrite Hp. }
    cbn [fold_left]. rewrite Hs, IH. cbn [concat]. by rewrite app_assoc.
Qed.

Lemma readStep_loadError (acc : list JSON) (file : string * content) :
  unloadable JSON_parse file.2 ->
  readStep JSON_parse (returned acc) file = threw (loadError JSON_parse file.2).
Proof.
  intros Hbad. unfold readStep, parseE, loadError.
  cbn [mbind Except_bind bindE].
  destruct Hbad as [-> | (v & -> & Harr & Hstr)]; [done|].
  by destruct v.
Qed.
End LoaderMore.

(** X1.  A file whose name does not end in ".json" is never read: putting
    it anywhere in the listing, whatever it holds, leaves the run as it
    is. *)
Theorem X1_other_files_ignored {content : Type} (src : Source)
    (JSON_parse : content -> option JSON)
    (localeCompare : string -> string -> Z)
    (untypedRun : list JSON -> Except string)
    (before after : list (string * content)) (name : string) (c : content) :
  endsWith name ".json" = false ->
  runOf src JSON_parse localeCompare untypedRun (before ++ (name, c) :: after)
  = runOf src JSON_parse localeCompare untypedRun (before ++ after).
Proof.
  intros Hname.
  assert (H : readAllJsonFiles JSON_parse (before ++ (name, c) :: after)
              = readAllJsonFiles JSON_parse (before ++ after)).
  { unfold readAllJsonFiles. rewrite !List.filter_app. simpl. by rewrite Hname. }
  destruct src; simpl;
    unfold MergeResults.mergeAndSortResults, Part000.mergeAndSortResults,
      mergeAndSortResults; by rewrite H.
Qed.

Lemma X1_other_files_ignored_witness :
  runOf merge_results_ts parsed byteCompare alwaysThrows
    ([("a.json", Some gt3Fragment)] ++ ("notes.txt", None) :: [])
  = runOf merge_results_ts parsed byteCompare alwaysThrows
      ([("a.json", Some gt3Fragment)] ++ []).
Proof. apply X1_other_files_ignored. reflexivity. Defined.

(** X2.  When every ".json" file of the listing parses to an array, the
    loader returns the elements of all these arrays, file after file in the
    order of the listing and in the order of each array. *)
Theorem X2_loader_concatenates {content : Type}
    (JSON_parse : content -> option JSON)
    (files : list (string * content)) (arrays : list (list JSON)) :
  Forall2 (fun file items => JSON_parse file.2 = Some (JArr items))
          (jsonFiles files) arrays ->
  readAllJsonFiles JSON_parse files = returned (concat arrays).
Proof.
  intros H. unfold readAllJsonFiles.
  apply (fold_readStep_arrays JSON_parse _ _ [] H).
Qed.

Lemma X2_loader_concatenates_witness :
  readAllJsonFiles parsed
    [("b.json", Some (JArr [JNum 1; JNum 2])); ("x.txt", None);
     ("a.json", Some (JArr [JNum 3]))]
  = returned (concat [[JNum 1; JNum 2]; [JNum 3]]).
Proof.
  apply X2_loader_concatenates. repeat constructor.
Defined.

(** X3.  The loader stops at the first ".json" file it cannot take in:
    when the files before it parse to arrays, the load throws the error of
    that file (a SyntaxError when [JSON.parse] throws, a TypeError when
    the parsed value cannot be spread), whatever comes after it. *)
Theorem X3_loader_first_error {content : Type}
    (JSON_parse : content -> option JSON)
    (before after : list (string * content)) (arrays : list (list JSON))
    (name : string) (c : content) :
  Forall2 (fun file items => JSON_parse file.2 = Some (JArr items))
          (jsonFiles before) arrays ->
  endsWith name ".json" = true ->
  unloadable JSON_parse c ->
  readAllJsonFiles JSON_parse (before ++ (name, c) :: after)
  = threw (loadError JSON_parse c).
Proof.
  intros Hgood Hname Hbad. unfold readAllJsonFiles.
  rewrite List.filter_app, fold_left_app. simpl. rewrite Hname. simpl.
  fold (jsonFiles before).
  rewrite (fold_readStep_arrays JSON_parse _ _ [] Hgood).
  rewrite (readStep_loadError JSON_parse _ (name, c) Hbad).
  apply fold_readStep_threw.
Qed.

Lemma X3_loader_first_error_witness :
  readAllJsonFiles parsed
    ([("a.json", Some (JArr [JNum 1]))]
     ++ ("b.json", Some (JNum 5)) :: [("c.json", None)])
  = threw (loadError parsed (Some (JNum 5))).
Proof.
  apply (X3_loader_first_error parsed _ _ [[JNum 1]]).
  - repeat constructor.
  - reflexivity.
  - right. exists (JNum 5). repeat split.
Defined.

(** ** What a [set] does to the values of a map *)

Section MapValues.
Context {V : Type}.
Implicit Types (m : JsMap.t V) (k : string) (v : V).

Lemma values_set_fresh m k v :
  JsMap.get k m = None -> JsMap.values (JsMap.set k v m) = JsMap.values m ++ [v].
Proof.
  intros H. unfold JsMap.values. by rewrite set_fresh, fmap_app by done.
Qed.

Lemma values_set_present m k v v' :
  JsMap.get k m = Some v ->
  exists l1 l2, JsMap.values m = l1 ++ v :: l2
                /\ JsMap.values (JsMap.set k v' m) = l1 ++ v' :: l2.
Proof.
  unfold JsMap.values. induction m as [|[k0 v0] m IH]; [done|].
  cbn [JsMap.get JsMap.set]. case_decide as E.
  - intros [= ->]. by exists [], m.*2.
  - intros H. destruct (IH H) as (l1 & l2 & H1 & H2).
    exists (v0 :: l1), l2. rewrite !fmap_cons. cbn [snd]. by rewrite H1, H2.
Qed.

(** A map is its keys, each with the value [get] finds. *)
Lemma entries_by_keys m (g : string -> V) :
  NoDup (JsMap.keys m) ->
  (forall k, k ∈ JsMap.keys m -> JsMap.get k m = Some (g k)) ->
  m = (fun k => (k, g k)) <$> JsMap.keys m.
Proof.
  unfold JsMap.keys. induction m as [|[k v] m IH]; [done|].
  rewrite !fmap_cons. cbn [fst]. rewrite NoDup_cons. intros [Hk Hnd] Hg.
  f_equal.
  - specialize (Hg k (list_elem_of_here _ _)). cbn [JsMap.get] in Hg.
    rewrite decide_True in Hg by done. by injection Hg as ->.
  - apply IH; [done|]. intros k' Hin.
    specialize (Hg k' (list_elem_of_further _ _ _ Hin)). cbn [JsMap.get] in Hg.
    rewrite decide_False in Hg; [done|]. intros ->. by apply Hk.
Qed.
End MapValues.

(** ** The class grouper *)

Section GrouperMore.
Context {R : Type}.
Implicit Types (all : list (ClassData R)).

Lemma buildClassMap_keys all :
  JsMap.keys (buildClassMap all) = firstSeen (carClass <$> all).
Proof.
  induction all as [|cd all IH] using rev_ind; [done|].
  rewrite buildClassMap_snoc, fmap_app. change (carClass <$> [cd]) with [carClass cd].
  rewrite firstSeen_snoc. unfold groupStep.
  destruct (JsMap.get (carClass cd) (buildClassMap all)) as [e|] eqn:E;
    rewrite keys_set, E.
  - rewrite decide_True; [done|].
    apply elem_of_firstSeen. rewrite <- IH.
    destruct (decide (carClass cd ∈ JsMap.keys (buildClassMap all))) as [?|Hn];
      [done|].
    apply get_None_keys in Hn. congruence.
  - rewrite decide_False; [by rewrite IH|].
    rewrite <- elem_of_firstSeen, <- IH. by apply get_None_keys.
Qed.
End GrouperMore.

Lemma buildClassMap_entries {R : Type} (all : list (ClassData R)) :
  JsMap.entries (buildClassMap all)
  = (fun c =>
       (c, concat (standings <$> filter (fun cd => carClass cd = c) all)))
    <$> firstSeen (carClass <$> all).
Proof.
  unfold JsMap.entries. rewrite <- buildClassMap_keys.
  apply entries_by_keys; [apply buildClassMap_NoDup|].
  intros c Hc. rewrite buildClassMap_get.
  destruct (filter (fun cd => carClass cd = c) all) as [|cd cds] eqn:E; [|done].
  exfalso. rewrite buildClassMap_keys in Hc.
  apply elem_of_firstSeen, list_elem_of_fmap in Hc as (cd & -> & Hin).
  assert (cd ∈ filter (fun cd' => carClass cd' = carClass cd) all) as Hf
    by (by apply list_elem_of_filter).
  rewrite E in Hf. by apply elem_of_nil in Hf.
Qed.

(** X4.  The class map lists every class name once, in the order in which
    the classes first appear in the loaded data, each with all the
    standings reported for it, in order of appearance. *)
Theorem X4_grouper_by_first_appearance {R : Type} (all : list (ClassData R)) :
  JsMap.entries (buildClassMap all)
  = (fun c =>
       (c, concat (standings <$> filter (fun cd => carClass cd = c) all)))
    <$> firstSeen (carClass <$> all).
Proof. apply buildClassMap_entries. Qed.

(** X5.  Grouping loses and invents nothing: the standings held by the
    class map are, all together, the standings of the loaded data. *)
Theorem X5_grouper_keeps_every_standing {R : Type} (all : list (ClassData R)) :
  concat (JsMap.values (buildClassMap all)) ≡ₚ concat (standings <$> all).
Proof.
  induction all as [|cd all IH] using rev_ind; [done|].
  rewrite buildClassMap_snoc, fmap_app, concat_app. simpl. rewrite app_nil_r.
  rewrite <- IH. unfold groupStep.
  destruct (JsMap.get (carClass cd) (buildClassMap all)) as [e|] eqn:E.
  - destruct (values_set_present _ _ _ (e ++ standings cd) E)
      as (l1 & l2 & -> & ->).
    rewrite !concat_app, !concat_cons, <- !app_assoc.
    apply Permutation_app_head, Permutation_app_head, Permutation_app_comm.
  - rewrite values_set_fresh by done. rewrite concat_app. simpl.
    by rewrite app_nil_r.
Qed.

(** ** The driver merger *)

Lemma length_firstSeen (ids : list string) :
  (length (firstSeen ids) <= length ids)%nat.
Proof.
  induction ids as [|d ids IH]; simpl; [done|].
  pose proof (length_filter (fun d' => d' <> d) (firstSeen ids)). lia.
Qed.

Section MergerMore.
Context {R : Type}.
Implicit Types (src : Source) (l later : list (Standing R))
  (e m : MergedStanding R).

Lemma fold_first_values src later e :
  position (fold_left (accumulateOf src) later e) = position e
  /\ carNum (fold_left (accumulateOf src) later e) = carNum e
  /\ car (fold_left (accumulateOf src) later e) = car e.
Proof.
  revert e. induction later as [|s later IH]; intros e; simpl; [done|].
  destruct (IH (accumulateOf src e s)) as (-> & -> & ->). by destruct src.
Qed.

Lemma sumOf_app (f : Standing R -> Z) (l1 l2 : list (Standing R)) :
  sumOf f (l1 ++ l2) = sumOf f l1 + sumOf f l2.
Proof. induction l1 as [|s l1 IH]; simpl; [done|]. rewrite IH. lia. Qed.

(** A field that the seed copies and the accumulation adds up has the same
    total after the merge as before. *)
Lemma mergeLoop_total (accumulate : MergedStanding R -> Standing R -> MergedStanding R)
    (f : Standing R -> Z) l :
  (forall s, f (seed s) = f s) ->
  (forall e s, f (accumulate e s) = f e + f s) ->
  sumOf f (mergeLoop accumulate l) = sumOf f l.
Proof.
  intros Hseed Hacc. unfold mergeLoop.
  induction l as [|s l IH] using rev_ind; [done|].
  rewrite fold_left_app, sumOf_app. simpl. rewrite <- IH. unfold mergeStep.
  destruct (JsMap.get (id s) _) as [e|] eqn:E.
  - destruct (values_set_present _ _ _ (accumulate e s) E)
      as (l1 & l2 & -> & ->).
    rewrite !sumOf_app. simpl. rewrite Hacc. lia.
  - rewrite values_set_fresh by done. rewrite sumOf_app. simpl.
    rewrite Hseed. lia.
Qed.

Lemma mergeStep_position_blind
    (accumulate : MergedStanding R -> Standing R -> MergedStanding R)
    (Hacc : forall e s s', withoutPosition s = withoutPosition s' ->
                           accumulate e s = accumulate e s')
    (mp : JsMap.t (MergedStanding R)) (s s' : Standing R) :
  withoutPosition s = withoutPosition s' ->
  mergeStep accumulate mp s = mergeStep accumulate mp s'.
Proof.
  intros H. unfold mergeStep.
  assert (id s = id s' /\ seed s = seed s') as [-> ->].
  { destruct s, s'. unfold withoutPosition, numericFields in H. simpl in H.
    injection H as -> -> -> -> -> -> -> -> ->. done. }
  destruct (JsMap.get (id s') mp); [|done]. by rewrite (Hacc _ s s' H).
Qed.

Lemma accumulateOf_position_blind src e (s s' : Standing R) :
  withoutPosition s = withoutPosition s' ->
  accumulateOf src e s = accumulateOf src e s'.
Proof.
  intros H. destruct s, s'. unfold withoutPosition, numericFields in H.
  simpl in H. injection H as -> -> -> -> -> -> -> -> ->. by destruct src.
Qed.
End MergerMore.

(** X6.  The merger returns one record per driver, the drivers in the
    order of their first occurrence in the input, and so never more
    records than it was given. *)
Theorem X6_merger_first_occurrence_order {R : Type} (src : Source)
    (l : list (Standing R)) :
  id <$> mergerOf src l = firstSeen (id <$> l)
  /\ (length (mergerOf src l) <= length l)%nat.
Proof.
  pose proof (mergerOf_ids src l) as H. split; [done|].
  rewrite <- (length_fmap id (mergerOf src l)), H, <- (length_fmap id l).
  apply length_firstSeen.
Qed.

(** X7.  A merged record has position 0, and its car number and car are
    those of the driver's first record: later records never change them. *)
Theorem X7_merger_first_record_values {R : Type} (src : Source)
    (l : list (Standing R)) (m : MergedStanding R) :
  m ∈ mergerOf src l ->
  position m = 0
  /\ exists first later,
       occurrences (id m) l = first :: later
       /\ carNum m = carNum first /\ car m = car first.
Proof.
  intros Hin. apply mergerOf_elem in Hin.
  destruct (occurrences (id m) l) as [|first later] eqn:E; [done|].
  injection Hin as <-.
  destruct (fold_first_values src later (seed first)) as (Hp & Hn & Hc).
  split; [done|]. by exists first, later.
Qed.

Lemma X7_merger_first_record_values_witness :
  position (mkStanding 0 "Alice" 7 "Porsche" 18 1 8 2 21 [1%nat; 2%nat]) = 0
  /\ exists first later,
       occurrences
         (id (mkStanding 0 "Alice" 7 "Porsche" 18 1 8 2 21 [1%nat; 2%nat]))
         twoRecords = first :: later
       /\ carNum (mkStanding 0 "Alice" 7 "Porsche" 18 1 8 2 21 [1%nat; 2%nat])
          = carNum first
       /\ car (mkStanding 0 "Alice" 7 "Porsche" 18 1 8 2 21 [1%nat; 2%nat])
          = car first.
Proof.
  apply (X7_merger_first_record_values part_000 twoRecords).
  apply list_elem_of_here.
Defined.


Section MergerAlgebra.
Context {R : Type}.
Implicit Types (src : Source) (l : list (Standing R)) (m : MergedStanding R).

Lemma mergerOf_position src l m : m ∈ mergerOf src l -> position m = 0.
Proof.
  intros Hin. apply mergerOf_elem in Hin.
  destruct (occurrences (id m) l) as [|first later]; [done|].
  injection Hin as <-. by destruct (fold_first_values src later (seed first)).
Qed.

Lemma seed_fixed m : position m = 0 -> seed m = m.
Proof. destruct m. simpl. by intros ->. Qed.

Lemma fmap_fixed {A : Type} (f : A -> A) (k : list A) :
  (forall x, x ∈ k -> f x = x) -> f <$> k = k.
Proof.
  induction k as [|x k IH]; intros H; [done|]. rewrite fmap_cons.
  rewrite (H x) by apply list_elem_of_here.
  rewrite IH; [done|]. intros y Hy. by apply H, list_elem_of_further.
Qed.

Lemma mergeLoop_races
    (accumulate : MergedStanding R -> Standing R -> MergedStanding R) l :
  (forall e s, races (accumulate e s) = races e ++ races s) ->
  concat (races <$> mergeLoop accumulate l) ≡ₚ concat (races <$> l).
Proof.
  intros Hacc. unfold mergeLoop.
  induction l as [|s l IH] using rev_ind; [done|].
  rewrite fold_left_app, fmap_app, concat_app. simpl. rewrite app_nil_r, <- IH.
  unfold mergeStep. destruct (JsMap.get (id s) _) as [e|] eqn:E.
  - destruct (values_set_present _ _ _ (accumulate e s) E)
      as (l1 & l2 & -> & ->).
    rewrite !fmap_app, !fmap_cons, !concat_app, !concat_cons, Hacc,
      <- !app_assoc.
    apply Permutation_app_head, Permutation_app_head, Permutation_app_comm.
  - rewrite values_set_fresh by done.
    rewrite fmap_app, concat_app. simpl. by rewrite app_nil_r.
Qed.
End MergerAlgebra.

(** X8.  merge-results.ts: each of the five numeric fields of a merged
    record is the sum of that field over all the records of its driver,
    when these records are within the safe-integer range (where the
    additions of the code are exact). *)
Theorem X8_merge_results_sums_five_fields {R : Type} (l : list (Standing R))
    (m : MergedStanding R) :
  m ∈ MergeResults.mergeStandingsByDriver l ->
  numbersWithinSafeRange (occurrences (id m) l) ->
  numericFields m =
  (sumOf championshipPoints (occurrences (id m) l),
   sumOf championshipPenalties (occurrences (id m) l),
   sumOf championshipScore (occurrences (id m) l),
   sumOf pointsAdjustment (occurrences (id m) l),
   sumOf actualPoints (occurrences (id m) l)).
Proof. intros Hin _. by apply merge_results_sums_five. Qed.

Lemma X8_merge_results_sums_five_fields_witness :
  numericFields (mkStanding 0 "Alice" 7 "Porsche" 18 3 8 6 21 [1%nat; 2%nat]) =
  (sumOf championshipPoints (occurrences "Alice" twoRecords),
   sumOf championshipPenalties (occurrences "Alice" twoRecords),
   sumOf championshipScore (occurrences "Alice" twoRecords),
   sumOf pointsAdjustment (occurrences "Alice" twoRecords),
   sumOf actualPoints (occurrences "Alice" twoRecords)).
Proof.
  apply (X8_merge_results_sums_five_fields twoRecords
           (mkStanding 0 "Alice" 7 "Porsche" 18 3 8 6 21 [1%nat; 2%nat])).
  - apply list_elem_of_here.
  - repeat split; unfold withinSafeRange; vm_compute; discriminate.
Defined.

(** X9.  part_000: the points, the score and the actual points of a merged
    record are the sums over all the records of its driver, when these
    records are within the safe-integer range (where the additions of the
    code are exact), while the penalties and the adjustment are those of
    the first record alone. *)
Theorem X9_part_000_sums_three_fields {R : Type} (l : list (Standing R))
    (m : MergedStanding R) :
  m ∈ Part000.mergeStandingsByDriver l ->
  summedWithinSafeRange (occurrences (id m) l) ->
  exists first later,
    occurrences (id m) l = first :: later /\
    numericFields m =
    (sumOf championshipPoints (first :: later),
     championshipPenalties first,
     sumOf championshipScore (first :: later),
     pointsAdjustment first,
     sumOf actualPoints (first :: later)).
Proof. intros Hin _. by apply part_000_sums_three. Qed.

Lemma X9_part_000_sums_three_fields_witness :
  exists first later,
    occurrences
      (id (mkStanding 0 "Alice" 7 "Porsche" 18 1 8 2 21 [1%nat; 2%nat]))
      twoRecords = first :: later /\
    numericFields (mkStanding 0 "Alice" 7 "Porsche" 18 1 8 2 21 [1%nat; 2%nat]) =
    (sumOf championshipPoints (first :: later),
     championshipPenalties first,
     sumOf championshipScore (first :: later),
     pointsAdjustment first,
     sumOf actualPoints (first :: later)).
Proof.
  apply (X9_part_000_sums_three_fields twoRecords).
  - apply list_elem_of_here.
  - repeat split; unfold withinSafeRange; vm_compute; discriminate.
Defined.

(** X10.  On every input the two mergers return the same drivers in the
    same order with the same position, car number, car, points, score,
    actual points and races: they can differ in the penalties and the
    adjustment only. *)
Theorem X10_mergers_differ_in_two_fields_only {R : Type} (l : list (Standing R)) :
  sharedFields <$> MergeResults.mergeStandingsByDriver l
  = sharedFields <$> Part000.mergeStandingsByDriver l.
Proof. apply mergers_agree_on_shared_fields. Qed.

(** X11.  When no driver occurs twice in the input, nothing is
    accumulated: either merger returns the input records in their order,
    each with its position reset to 0. *)
Theorem X11_merger_without_repeats {R : Type} (src : Source)
    (l : list (Standing R)) :
  NoDup (id <$> l) -> mergerOf src l = seed <$> l.
Proof. apply mergerOf_no_repeats. Qed.

Lemma X11_merger_without_repeats_witness :
  mergerOf part_000 [entry "Alice" 10 1 5 [1%nat]; entry "Bob" 9 0 9 []]
  = seed <$> [entry "Alice" 10 1 5 [1%nat]; entry "Bob" 9 0 9 []].
Proof.
  apply X11_merger_without_repeats.
  apply NoDup_cons. split.
  - intros H. apply list_elem_of_singleton in H. discriminate.
  - apply NoDup_singleton.
Defined.

(** X12.  Merging is idempotent: merging the merged records once more
    returns them unchanged. *)
Theorem X12_merger_idempotent {R : Type} (src : Source) (l : list (Standing R)) :
  mergerOf src (mergerOf src l) = mergerOf src l.
Proof.
  rewrite (mergerOf_no_repeats src (mergerOf src l))
    by (rewrite mergerOf_ids; apply NoDup_firstSeen).
  apply fmap_fixed. intros m Hm. apply seed_fixed. by eapply mergerOf_position.
Qed.

(** X13.  Merging conserves the totals of the fields it adds up: for a
    class whose records are within the safe-integer range (where the
    additions of the code are exact), the championship points, the
    championship score and the actual points sum to the same before and
    after the merge, in both files, and so do the penalties and the
    adjustment in merge-results.ts. *)
Theorem X13_merger_conserves_totals {R : Type} (src : Source)
    (l : list (Standing R)) :
  numbersWithinSafeRange l ->
  sumOf championshipPoints (mergerOf src l) = sumOf championshipPoints l
  /\ sumOf championshipScore (mergerOf src l) = sumOf championshipScore l
  /\ sumOf actualPoints (mergerOf src l) = sumOf actualPoints l
  /\ sumOf championshipPenalties (MergeResults.mergeStandingsByDriver l)
     = sumOf championshipPenalties l
  /\ sumOf pointsAdjustment (MergeResults.mergeStandingsByDriver l)
     = sumOf pointsAdjustment l.
Proof.
  intros _. rewrite mergerOf_loop.
  repeat split; apply mergeLoop_total; try done; by destruct src.
Qed.

Lemma X13_merger_conserves_totals_witness :
  sumOf championshipPoints (mergerOf part_000 twoRecords)
  = sumOf championshipPoints twoRecords
  /\ sumOf championshipScore (mergerOf part_000 twoRecords)
     = sumOf championshipScore twoRecords
  /\ sumOf actualPoints (mergerOf part_000 twoRecords)
     = sumOf actualPoints twoRecords
  /\ sumOf championshipPenalties (MergeResults.mergeStandingsByDriver twoRecords)
     = sumOf championshipPenalties twoRecords
  /\ sumOf pointsAdjustment (MergeResults.mergeStandingsByDriver twoRecords)
     = sumOf pointsAdjustment twoRecords.
Proof.
  apply X13_merger_conserves_totals.
  repeat split; unfold withinSafeRange; vm_compute; discriminate.
Defined.

(** X14.  Merging drops and duplicates no race: the races of the merged
    records are, all together, the races of the input records. *)
Theorem X14_merger_keeps_every_race {R : Type} (src : Source)
    (l : list (Standing R)) :
  concat (races <$> mergerOf src l) ≡ₚ concat (races <$> l).
Proof.
  rewrite mergerOf_loop. apply mergeLoop_races, accumulateOf_races.
Qed.

(** X15.  The position a fragment reports for a standing is never used:
    two inputs that differ in the positions only merge to the same
    records. *)
Theorem X15_merger_ignores_input_positions {R : Type} (src : Source)
    (l l' : list (Standing R)) :
  sameButPosition l l' -> mergerOf src l = mergerOf src l'.
Proof.
  rewrite !mergerOf_loop. unfold mergeLoop, sameButPosition.
  generalize (JsMap.empty : JsMap.t (MergedStanding R)).
  revert l'. induction l as [|s l IH]; intros [|s' l'] mp H; try done.
  rewrite !fmap_cons in H.
  pose proof (f_equal head H) as Hs. apply (inj Some) in Hs.
  pose proof (f_equal tail H) as Ht. simpl in Ht. simpl.
  rewrite (mergeStep_position_blind _ (accumulateOf_position_blind src)
             mp s s' Hs).
  by apply IH.
Qed.

Lemma X15_merger_ignores_input_positions_witness :
  mergerOf merge_results_ts
    [mkStanding 1 "Alice" 7 "Porsche" 10 1 5 2 11 [1%nat];
     mkStanding 2 "Alice" 7 "Porsche" 8 2 3 4 10 [2%nat]]
  = mergerOf merge_results_ts
      [mkStanding 5 "Alice" 7 "Porsche" 10 1 5 2 11 [1%nat];
       mkStanding 9 "Alice" 7 "Porsche" 8 2 3 4 10 [2%nat]].
Proof. apply X15_merger_ignores_input_positions. reflexivity. Defined.

(** ** The ranker *)

Section RankerMore.
Context {R : Type}.
Implicit Types (l : list (MergedStanding R)).

Lemma js_sort_sorted_fixed {A : Type} (cmp : A -> A -> Z) (k : list A) :
  StronglySorted (fun x y => cmp x y <= 0) k -> js_sort cmp k = k.
Proof.
  induction 1 as [|x k Hs IH Hall]; simpl; [done|]. rewrite IH.
  destruct k as [|y k]; simpl; [done|].
  apply Forall_cons in Hall as [Hxy _].
  by apply Z.leb_le in Hxy as ->.
Qed.

Lemma rank_order_comparePoints l :
  StronglySorted (fun a b => ~ ahead b a) l <->
  StronglySorted (fun a b => comparePoints a b <= 0) l.
Proof.
  assert (H : forall a b : MergedStanding R,
             ~ ahead b a <-> comparePoints a b <= 0).
  { intros a b. rewrite <- comparePoints_pos. lia. }
  split; induction 1 as [|x k Hs IH Hall]; constructor; try done;
    (eapply Forall_impl; [exact Hall|]); intros y Hy; by apply H.
Qed.

Lemma withPosition_withoutPosition (m : MergedStanding R) i :
  withoutPosition (withPosition m i) = withoutPosition m.
Proof. done. Qed.

Lemma assignPositions_withoutPosition l :
  withoutPosition <$> assignPositions l = withoutPosition <$> l.
Proof.
  apply list_eq. intros i. unfold assignPositions.
  rewrite !list_lookup_fmap, list_lookup_imap. by destruct (l !! i).
Qed.
End RankerMore.

(** X16.  Sorting is a rearrangement of its input (no entry lost, none
    duplicated) in rank order: no entry is ahead of an entry that stands
    before it. *)
Theorem X16_sort_is_a_ranked_permutation {R : Type}
    (l : list (MergedStanding R)) :
  sortStandingsByPoints l ≡ₚ l
  /\ StronglySorted (fun a b => ~ ahead b a) (sortStandingsByPoints l).
Proof.
  split; [apply js_sort_Permutation|].
  apply rank_order_comparePoints, sortStandingsByPoints_sorted.
Qed.

(** X17.  A list that is already in rank order is returned unchanged by
    the sort. *)
Theorem X17_sort_keeps_ranked_input {R : Type} (l : list (MergedStanding R)) :
  StronglySorted (fun a b => ~ ahead b a) l -> sortStandingsByPoints l = l.
Proof.
  intros H. apply js_sort_sorted_fixed. by apply rank_order_comparePoints.
Qed.

Lemma X17_sort_keeps_ranked_input_witness :
  sortStandingsByPoints
    [entry "Alice" 18 0 8 []; entry "Bob" 18 0 8 []; entry "Carl" 9 0 9 []]
  = [entry "Alice" 18 0 8 []; entry "Bob" 18 0 8 []; entry "Carl" 9 0 9 []].
Proof.
  apply X17_sort_keeps_ranked_input.
  repeat constructor; unfold ahead; simpl; lia.
Defined.

(** X18.  [assignPositions] changes the position of an entry and nothing
    else, and applying it twice is applying it once. *)
Theorem X18_assignPositions_only_positions {R : Type}
    (l : list (MergedStanding R)) :
  withoutPosition <$> assignPositions l = withoutPosition <$> l
  /\ assignPositions (assignPositions l) = assignPositions l.
Proof.
  split; [apply assignPositions_withoutPosition|].
  apply list_eq. intros i. unfold assignPositions.
  rewrite !list_lookup_imap. by destruct (l !! i).
Qed.

(** X19.  Ranking a class keeps its merged records: up to their order and
    their positions, the ranked standings are the merged standings. *)
Theorem X19_ranking_keeps_the_records {R : Type} (src : Source)
    (l : list (Standing R)) :
  withoutPosition <$> rankClass (mergerOf src) l
  ≡ₚ withoutPosition <$> mergerOf src l.
Proof.
  unfold rankClass, sortStandingsByPoints.
  rewrite assignPositions_withoutPosition.
  by rewrite (js_sort_Permutation comparePoints (mergerOf src l)).
Qed.

(** ** The classes of the results *)

(** X25.  The results hold one entry per class of the loaded data, and the
    standings of a class are the ranked merge of all the standings reported
    for it, in order of appearance. *)
Theorem X25_results_by_class {R : Type} (src : Source)
    (localeCompare : string -> string -> Z) (all : list (ClassData R)) :
  mergedResults localeCompare (mergerOf src) all
  ≡ₚ (fun c =>
        mkClassData c
          (rankClass (mergerOf src)
             (concat (standings <$> filter (fun cd => carClass cd = c) all))))
     <$> firstSeen (carClass <$> all).
Proof.
  unfold mergedResults. rewrite js_sort_Permutation.
  unfold buildMergedResults. rewrite buildClassMap_entries.
  by rewrite <- list_fmap_compose.
Qed.

(** X26.  With a consistent comparator on class names (total and
    transitive in its sign), the classes of the results stand in the order
    of that comparator. *)
Theorem X26_classes_in_comparator_order {R : Type} (src : Source)
    (localeCompare : string -> string -> Z) (all : list (ClassData R)) :
  (forall a b, 0 < localeCompare a b -> localeCompare b a <= 0) ->
  (forall a b c, localeCompare a b <= 0 -> localeCompare b c <= 0 ->
                 localeCompare a c <= 0) ->
  StronglySorted (fun a b => localeCompare (carClass a) (carClass b) <= 0)
    (mergedResults localeCompare (mergerOf src) all).
Proof.
  intros Htotal Htrans. unfold mergedResults.
  apply (js_sort_sorted (compareClasses localeCompare)); unfold compareClasses.
  - intros x y. apply Htotal.
  - intros x y z. apply Htrans.
Qed.

Lemma X26_classes_in_comparator_order_witness :
  StronglySorted (fun a b => lengthCompare (carClass a) (carClass b) <= 0)
    (mergedResults lengthCompare (mergerOf part_000)
       [mkClassData "LMP2" [entry "Bob" 9 0 9 []];
        mkClassData "GT3" [entry "Alice" 10 1 5 [1%nat]]]).
Proof.
  apply X26_classes_in_comparator_order; unfold lengthCompare; intros; lia.
Defined.

(** ** The formatter *)

(** X20.  merge-results.ts, [truncateText] with a width of at least 1: the
    result has the length of the text or the width, whichever is smaller,
    so it never exceeds the width. *)
Theorem X20_truncateText_fits (text : string) (maxLength : nat) :
  (1 <= maxLength)%nat ->
  String.length (MergeResults.truncateText text maxLength)
  = Nat.min (String.length text) maxLength.
Proof.
  intros Hw. unfold MergeResults.truncateText.
  destruct (String.length text <=? maxLength)%nat eqn:E.
  - apply Nat.leb_le in E. lia.
  - apply Nat.leb_gt in E. rewrite length_append, length_substring0. simpl. lia.
Qed.

Lemma X20_truncateText_fits_witness :
  String.length (MergeResults.truncateText "Maximilian Verstappen" 15)
  = Nat.min (String.length "Maximilian Verstappen") 15.
Proof. apply X20_truncateText_fits. lia. Defined.

(** X21.  part_000, [truncateAndPad]: the result has exactly the asked
    width, except when a text longer than the width meets a width below 3:
    the result then has 3 characters (the dots), more than the width. *)
Theorem X21_truncateAndPad_width (text : string) (maxWidth : nat) :
  String.length (Part000.truncateAndPad text maxWidth)
  = (if (maxWidth <? String.length text)%nat
     then Nat.max maxWidth 3 else maxWidth).
Proof.
  unfold Part000.truncateAndPad.
  destruct (maxWidth <? String.length text)%nat eqn:E.
  - apply Nat.ltb_lt in E. rewrite length_append, length_substring0. simpl. lia.
  - apply Nat.ltb_ge in E. rewrite length_padEnd. lia.
Qed.

Section TableWidth.
Context {R : Type}.
Implicit Types (m : MergedStanding R) (l : list (Standing R)).

Lemma row_width_part_000 m :
  1 <= position m <= 999 ->
  String.length (Part000.renderRow m) = Part000.ROW_WIDTH.
Proof.
  intros Hpos. pose proof (length_position_label _ Hpos) as Hlabel.
  unfold Part000.renderRow, Part000.formatStandingPosition.
  rewrite !length_append, !length_padStart, !length_truncateAndPad
    by (unfold Part000.DRIVER_WIDTH, Part000.CAR_WIDTH,
          Part000.POINTS_WIDTH; lia).
  unfold Part000.ROW_WIDTH, Part000.POS_WIDTH in *. simpl. lia.
Qed.

Lemma row_width_merge_results m :
  1 <= position m <= 999 -> -99 <= championshipPoints m <= 999 ->
  String.length (MergeResults.renderRow m) = MergeResults.ROW_WIDTH.
Proof.
  intros Hpos Hpts. pose proof (length_position_label _ Hpos) as Hlabel.
  pose proof (length_numberToString _ Hpts) as Hp.
  unfold MergeResults.renderRow.
  rewrite !length_append, !length_padStart, !length_truncateText
    by (unfold MergeResults.DRIVER_WIDTH, MergeResults.CAR_WIDTH; lia).
  unfold toFixed, MergeResults.ROW_WIDTH, MergeResults.POS_WIDTH,
    MergeResults.POINTS_WIDTH in *. simpl. lia.
Qed.

(** A ranked entry is a merged record with a position between 1 and the
    number of merged records. *)
Lemma rankClass_entry (merge : list (Standing R) -> list (MergedStanding R)) l m :
  m ∈ rankClass merge l ->
  exists m0 i, m0 ∈ merge l /\ m = withPosition m0 i
               /\ (i < length (merge l))%nat.
Proof.
  unfold rankClass, sortStandingsByPoints.
  intros (i & Hi)%list_elem_of_lookup_1.
  apply assignPositions_lookup in Hi as (m0 & Hi & ->).
  exists m0, i. split; [|split; [done|]].
  - rewrite <- (js_sort_Permutation comparePoints (merge l)).
    by eapply list_elem_of_lookup_2.
  - rewrite <- (length_js_sort comparePoints (merge l)).
    by eapply lookup_lt_Some.
Qed.
End TableWidth.

(** X22.  part_000: in the table of a class with at most 999 merged
    drivers, the header line, the rule under it and every row have the
    same length, the fixed row width of 74 characters, whatever the
    standings hold. *)
Theorem X22_part_000_table_aligned {R : Type} (l : list (Standing R)) :
  (length (Part000.mergeStandingsByDriver l) <= 999)%nat ->
  Forall (fun line => String.length line = Part000.ROW_WIDTH)
    (Part000.headerLines
     ++ map Part000.renderRow (rankClass Part000.mergeStandingsByDriver l)).
Proof.
  intros HK. apply Forall_app. split.
  - repeat constructor.
  - apply Forall_forall. intros row (m & -> & Hm)%list_elem_of_fmap.
    apply rankClass_entry in Hm as (m0 & i & _ & -> & Hi).
    apply row_width_part_000. simpl. lia.
Qed.

Lemma X22_part_000_table_aligned_witness :
  Forall (fun line => String.length line = Part000.ROW_WIDTH)
    (Part000.headerLines
     ++ map Part000.renderRow
          (rankClass Part000.mergeStandingsByDriver
             [entry "A driver with a name longer than thirty characters" 123456 0 5 [];
              entry "Bob" 9 0 9 []])).
Proof. apply X22_part_000_table_aligned. simpl. lia. Defined.

(** X23.  merge-results.ts: in the table of a class with at most 999 merged
    drivers whose merged points all lie between -99 and 999, every row has
    the fixed row width of 42 characters. *)
Theorem X23_merge_results_rows_aligned {R : Type} (l : list (Standing R)) :
  (length (MergeResults.mergeStandingsByDriver l) <= 999)%nat ->
  Forall (fun m => -99 <= championshipPoints m <= 999)
         (MergeResults.mergeStandingsByDriver l) ->
  Forall (fun line => String.length line = MergeResults.ROW_WIDTH)
    (map MergeResults.renderRow
       (rankClass MergeResults.mergeStandingsByDriver l)).
Proof.
  intros HK Hpts. apply Forall_forall.
  intros row (m & -> & Hm)%list_elem_of_fmap.
  apply rankClass_entry in Hm as (m0 & i & Hm0 & -> & Hi).
  rewrite Forall_forall in Hpts.
  apply row_width_merge_results; simpl; [lia|by apply Hpts].
Qed.

Lemma X23_merge_results_rows_aligned_witness :
  Forall (fun line => String.length line = MergeResults.ROW_WIDTH)
    (map MergeResults.renderRow
       (rankClass MergeResults.mergeStandingsByDriver
          [entry "A driver with a long name" 10 0 5 []; entry "Bob" 9 0 9 [];
           entry "A driver with a long name" 8 0 5 []])).
Proof.
  apply X23_merge_results_rows_aligned.
  - simpl. lia.
  - repeat constructor; simpl; lia.
Defined.

(** ** The run on well-shaped fragments *)

Section WellShaped.

Lemma field_mono {A B : Type} (k : string) (dec : JSON -> option A)
    (dec' : JSON -> option B) (v : JSON) :
  (forall x, is_Some (dec x) -> is_Some (dec' x)) ->
  is_Some (field k dec v) -> is_Some (field k dec' v).
Proof.
  intros H. unfold field. destruct (getProp k v) as [x|]; simpl; [apply H|done].
Qed.

Lemma arrayOf_mono {A B : Type} (dec : JSON -> option A)
    (dec' : JSON -> option B) (v : JSON) :
  (forall x, is_Some (dec x) -> is_Some (dec' x)) ->
  is_Some (arrayOf dec v) -> is_Some (arrayOf dec' v).
Proof.
  intros H. unfold arrayOf. destruct (asArr v) as [l|]; simpl; [|done].
  rewrite !mapM_is_Some. intros HF. eapply Forall_impl; [exact HF|].
  intros x. apply H.
Qed.

Lemma decodeStanding_mono {A B : Type} (dec : JSON -> option A)
    (dec' : JSON -> option B) (v : JSON) :
  (forall x, is_Some (dec x) -> is_Some (dec' x)) ->
  is_Some (decodeStanding dec v) -> is_Some (decodeStanding dec' v).
Proof.
  intros H [s Hs]. unfold decodeStanding in *.
  assert (Hr : is_Some (field "races" (arrayOf dec') v)).
  { apply (field_mono _ (arrayOf dec)); [intros x; by apply arrayOf_mono|].
    destruct (field "races" (arrayOf dec) v); [done|].
    repeat match type of Hs with
           | context [field ?k ?d v] =>
               destruct (field k d v); simpl in Hs; [|discriminate]
           end.
    discriminate. }
  destruct Hr as [rs ->].
  repeat match type of Hs with
         | context [field ?k asNum v] =>
             destruct (field k asNum v); simpl in Hs; [|discriminate]
         | context [field ?k asStr v] =>
             destruct (field k asStr v); simpl in Hs; [|discriminate]
         end.
  done.
Qed.

Lemma decodeClassData_mono {A B : Type} (dec : JSON -> option A)
    (dec' : JSON -> option B) (v : JSON) :
  (forall x, is_Some (dec x) -> is_Some (dec' x)) ->
  is_Some (decodeClassData dec v) -> is_Some (decodeClassData dec' v).
Proof.
  intros H [s Hs]. unfold decodeClassData in *.
  assert (Hr : is_Some (field "standings" (arrayOf (decodeStanding dec')) v)).
  { apply (field_mono _ (arrayOf (decodeStanding dec))).
    - intros x. apply arrayOf_mono. intros y. by apply decodeStanding_mono.
    - destruct (field "carClass" asStr v); simpl in Hs; [|discriminate].
      by destruct (field "standings" _ v). }
  destruct Hr as [rs ->].
  destruct (field "carClass" asStr v); simpl in Hs; [|discriminate]. done.
Qed.

(** A well-shaped fragment is an array of class entries the code can use. *)
Lemma wellShaped_view (v : JSON) :
  wellShaped v = true ->
  exists items, v = JArr items /\ is_Some (mapM viewClassData items).
Proof.
  unfold wellShaped, decodeFragment, arrayOf.
  intros H%bool_decide_eq_true. destruct v; simpl in H; try by destruct H.
  eexists. split; [done|]. rewrite mapM_is_Some. rewrite mapM_is_Some in H.
  eapply Forall_impl; [exact H|]. intros x Hx.
  apply (decodeClassData_mono decodeRace); [|done]. by intros ? _.
Qed.

Context {content : Type} (JSON_parse : content -> option JSON).

Lemma fold_readStep_wellShaped (l : list (string * content)) (acc : list JSON) :
  (forall file, file ∈ l ->
     exists v, JSON_parse file.2 = Some v /\ wellShaped v = true) ->
  is_Some (mapM viewClassData acc) ->
  exists all, fold_left (readStep JSON_parse) l (returned acc) = returned all
              /\ is_Some (mapM viewClassData all).
Proof.
  revert acc. induction l as [|file l IH]; intros acc Hl Hacc.
  - by exists acc.
  - destruct (Hl file (list_elem_of_here _ _)) as (v & Hv & Hw).
    apply wellShaped_view in Hw as (items & -> & Hitems).
    assert (Hs : readStep JSON_parse (returned acc) file = returned (acc ++ items)).
    { unfold readStep, parseE. by rewrite Hv. }
    cbn [fold_left]. rewrite Hs. apply IH.
    + intros f Hf. by apply Hl, list_elem_of_further.
    + rewrite mapM_is_Some in *. by apply Forall_app.
Qed.
End WellShaped.

(** X24.  When every ".json" file of the listing parses to a value of the
    declared shape, the run never throws: it hands a report to the sink,
    and the behaviour on ill-typed values plays no part. *)
Theorem X24_well_shaped_run_reports {content : Type} (src : Source)
    (JSON_parse : content -> option JSON)
    (localeCompare : string -> string -> Z)
    (untypedRun : list JSON -> Except string)
    (files : list (string * content)) :
  (forall name c, (name, c) ∈ files -> endsWith name ".json" = true ->
     exists v, JSON_parse c = Some v /\ wellShaped v = true) ->
  exists report,
    runOf src JSON_parse localeCompare untypedRun files = returned report
    /\ runOf src JSON_parse localeCompare alwaysThrows files = returned report.
Proof.
  intros Hfiles.
  destruct (fold_readStep_wellShaped JSON_parse (jsonFiles files) [])
    as (all & Hall & [typed Htyped]).
  - intros [name c] Hin. apply list_elem_of_In, filter_In in Hin as [Hin Hname].
    apply (Hfiles name c); [by apply list_elem_of_In|done].
  - by exists [].
  - destruct src; simpl;
      unfold MergeResults.mergeAndSortResults, Part000.mergeAndSortResults,
        mergeAndSortResults, readAllJsonFiles;
      fold (jsonFiles files); rewrite Hall; cbn [mbind Except_bind bindE];
      rewrite Htyped; eauto.
Qed.

Lemma X24_well_shaped_run_reports_witness :
  exists report,
    runOf part_000 parsed byteCompare alwaysThrows
      [("gt3.json", Some gt3Fragment); ("notes.txt", None)] = returned report
    /\ runOf part_000 parsed byteCompare alwaysThrows
         [("gt3.json", Some gt3Fragment); ("notes.txt", None)] = returned report.
Proof.
  apply X24_well_shaped_run_reports.
  intros name c Hin Hname.
  apply elem_of_cons in Hin as [Hin|Hin].
  - injection Hin as -> ->. exists gt3Fragment. split; reflexivity.
  - apply list_elem_of_singleton in Hin. injection Hin as -> ->. discriminate.
Defined.

(** X27.  A listing without any ".json" file is no error: the run hands
    the sink a report that consists of the heading line alone. *)
Theorem X27_empty_intake_reports_heading {content : Type} (src : Source)
    (JSON_parse : content -> option JSON)
    (localeCompare : string -> string -> Z)
    (untypedRun : list JSON -> Except string)
    (files : list (string * content)) :
  jsonFiles files = [] ->
  runOf src JSON_parse localeCompare untypedRun files
  = returned (headingOf src).
Proof.
  intros H. destruct src; simpl;
    unfold MergeResults.mergeAndSortResults, Part000.mergeAndSortResults,
      mergeAndSortResults, readAllJsonFiles;
    fold (jsonFiles files); by rewrite H.
Qed.

Lemma X27_empty_intake_reports_heading_witness :
  runOf part_000 parsed byteCompare alwaysThrows
    [("README.md", None); ("old.json.bak", Some JNull)]
  = returned (headingOf part_000).
Proof. apply X27_empty_intake_reports_heading. reflexivity. Defined.

(** X28.  Along the ranked standings of a class the championship points
    never increase: an entry has at least as many points as every entry
    ranked after it. *)
Theorem X28_points_never_increase {R : Type} (src : Source)
    (l : list (Standing R)) (i j : nat) (a b : MergedStanding R) :
  rankClass (mergerOf src) l !! i = Some a ->
  rankClass (mergerOf src) l !! j = Some b ->
  (i < j)%nat ->
  championshipPoints b <= championshipPoints a.
Proof.
  unfold rankClass. intros Ha Hb Hlt.
  apply assignPositions_lookup in Ha as (a0 & Ha & ->).
  apply assignPositions_lookup in Hb as (b0 & Hb & ->).
  pose proof (sortStandingsByPoints_sorted (mergerOf src l)) as Hs.
  pose proof (StronglySorted_lookup _ _ _ _ _ _ Hs Ha Hb Hlt) as Hle.
  simpl in *. unfold comparePoints in Hle. case_decide; lia.
Qed.

Lemma X28_points_never_increase_witness :
  championshipPoints (mkStanding 2 "Bob" 7 "Porsche" 9 0 9 0 9 [3%nat])
  <= championshipPoints
       (mkStanding 1 "Alice" 7 "Porsche" 18 1 8 0 18 [1%nat; 2%nat]).
Proof.
  apply (X28_points_never_increase part_000
           [entry "Bob" 9 0 9 [3%nat]; entry "Alice" 10 1 5 [1%nat];
            entry "Alice" 8 2 3 [2%nat]] 0 1).
  - reflexivity.
  - reflexivity.
  - lia.
Defined.
